(** * GpMotionFit: Gaussian-process motion fit (src/jaz/gp_motion_fit.cpp)

    A shallow embedding of the objective of RELION's per-particle motion
    estimation: the constructor (covariance kernel and spectral basis), the
    energy [f], its hand-written gradient [grad] and the two conversions
    [paramsToPos] / [posToParams].

    Modelling conventions.
    - [double] and [RFLOAT] values are real numbers ([R]); rounding is not
      modelled.
    - [int] loop counters and sizes are [nat].  All subtractions of the source
      on sizes ([fc-1], [fc-2]) only occur as loop bounds or guards, where the
      truncated subtraction of [nat] runs the same iterations.
    - The parameter vector [x] and the gradient vector [gradDest] are
      [list R].  Every access [v[i]] is checked: an index outside the vector
      is undefined behaviour in the source and is the error [None] here.
    - [Matrix2D], [Matrix1D], the [pc] x [fc] grids
      ([std::vector<std::vector<d2Vector>>]) and the correlation images are
      total lookup functions with functional update; the vectors of the
      constructed state ([positions], [perFrameOffsets], [eigenVals]) are
      lists read with a default.  The loops index all of them within the
      sizes they are built with.
    - Mutable locals and in/out arguments are threaded through a small
      state-and-error monad; [for] loops are combinators over it.
    - The division of [posToParams] by [eigenVals[d]] is the division of
      [R]; a zero eigenvalue, for which the source stores an infinity or a
      NaN, is outside the model, and the statements about these quotients
      assume the retained eigenvalues to be non-zero. *)

From Stdlib Require Import Reals Lra Lia List Arith PeanoNat Bool.
Import ListNotations.

Local Open Scope nat_scope.

(** ** 2D vectors ([gravis::d2Vector]) *)

Record d2Vector : Type := mkV { vx : R; vy : R }.

Definition vzero : d2Vector := mkV 0 0.
Definition vadd (a b : d2Vector) : d2Vector := mkV (vx a + vx b) (vy a + vy b).
Definition vsub (a b : d2Vector) : d2Vector := mkV (vx a - vx b) (vy a - vy b).
Definition norm2 (a : d2Vector) : R := (vx a * vx a + vy a * vy a)%R.

(** ** Grids and matrices *)

Definition grid : Type := nat -> nat -> d2Vector.
Definition Matrix2D : Type := nat -> nat -> R.
Definition Matrix1D : Type := nat -> R.

Definition gset {A : Type} (g : nat -> nat -> A) (i j : nat) (v : A)
  : nat -> nat -> A :=
  fun i' j' => if (i' =? i) && (j' =? j) then v else g i' j'.

(** ** Vectors with checked access *)

Fixpoint set_nth (i : nat) (v : R) (g : list R) : list R :=
  match g, i with
  | [], _ => []
  | _ :: t, 0 => v :: t
  | h :: t, S j => h :: set_nth j v t
  end.

(** ** The state-and-error monad

    A computation over a mutable state [St] either fails (an out-of-range
    vector access) or returns a value and the new state. *)

Definition M (St A : Type) : Type := St -> option (A * St).

Definition ret {St A} (a : A) : M St A := fun s => Some (a, s).

Definition bind {St A B} (m : M St A) (k : A -> M St B) : M St B :=
  fun s => match m s with
           | Some (a, s') => k a s'
           | None => None
           end.

Notation "x <- m ;; k" := (bind m (fun x => k))
  (at level 61, m at next level, right associativity).
Notation "m ;;; k" := (bind m (fun _ => k))
  (at level 61, right associativity).

Definition get {St} : M St St := fun s => Some (s, s).
Definition modify {St} (h : St -> St) : M St unit := fun s => Some (tt, h s).

(** [x[i]] for a vector that the computation only reads. *)
Definition read {St} (x : list R) (i : nat) : M St R :=
  fun s => match nth_error x i with
           | Some v => Some (v, s)
           | None => None
           end.

(** [v[i] = h(v[i])] on the vector held in the state. *)
Definition vmodify (i : nat) (h : R -> R) : M (list R) unit :=
  fun g => match nth_error g i with
           | Some old => Some (tt, set_nth i (h old) g)
           | None => None
           end.

(** [v[i] = a] on the vector held in the state. *)
Definition vwrite (i : nat) (a : R) : M (list R) unit :=
  vmodify i (fun _ => a).

(** [for (int k = 0; k < n; k++) acc = body(k, acc)]. *)
Fixpoint for_acc {St A} (n : nat) (a0 : A) (body : nat -> A -> M St A)
  : M St A :=
  match n with
  | 0 => ret a0
  | S k => a <- for_acc k a0 body ;; body k a
  end.

(** [for (int k = n-1; k >= 0; k--) acc = body(k, acc)]. *)
Fixpoint for_down_acc {St A} (n : nat) (a0 : A) (body : nat -> A -> M St A)
  : M St A :=
  match n with
  | 0 => ret a0
  | S k => a <- body k a0 ;; for_down_acc k a body
  end.

Definition for_ {St} (n : nat) (body : nat -> M St unit) : M St unit :=
  for_acc n tt (fun k _ => body k).

(** A loop that cannot fail: [for (k = 0; k < n; k++) a = body(k, a)]. *)
Fixpoint loop {A} (n : nat) (body : nat -> A -> A) (a : A) : A :=
  match n with
  | 0 => a
  | S k => body k (loop k body a)
  end.

(** Left-to-right finite sum, [F 0 + F 1 + ... + F (n-1)] starting from 0. *)
Fixpoint sumR (n : nat) (F : nat -> R) : R :=
  match n with
  | 0 => 0%R
  | S k => (sumR k F + F k)%R
  end.

(** ** External capabilities

    [Image<RFLOAT>] and the two entry points of [Interpolation] that the fit
    calls (src/jaz/interpolation.h), with the arguments of the call sites:
    image, x, y, z, n, wrap. *)

Class Interpolation : Type := {
  Image : Type;
  cubicXY : Image -> R -> R -> nat -> nat -> bool -> R;
  cubicXYgrad : Image -> R -> R -> nat -> nat -> bool -> d2Vector
}.

(** [SvdHelper::decompose(A, U, S, Vt)] (src/jaz/svd_helper.h) for a square
    matrix of the given size; the three out-parameters are returned. *)

Class SvdHelper : Type := {
  decompose : nat -> Matrix2D -> Matrix2D * Matrix1D * Matrix2D
}.

(** ** The program *)

Section GpMotionFit.

Context {interp : Interpolation}.

(** The members of the class.  [correlation] is kept with its two sizes
    [pc = correlation.size()] and [fc = correlation[0].size()]. *)
Record GpMotionFit : Type := mkFit {
  expKer : bool;
  pc : nat;
  fc : nat;
  dc : nat;
  threads : nat;
  sig_vel_px : R;
  sig_div_px : R;
  sig_acc_px : R;
  correlation : nat -> nat -> Image;
  positions : list d2Vector;
  perFrameOffsets : list d2Vector;
  basis : Matrix2D;
  eigenVals : list R
}.

(** *** Constructor *)

(** Line 35: the kernel value for squared distance [dd]. *)
Definition kernel (expKer : bool) (sv2 sd2 dd : R) : R :=
  (sv2 * (if expKer then exp (- sqrt (dd / sd2))
          else exp (-0.5 * dd / sd2)))%R.

(** Lines 26-38: the covariance matrix [A]. *)
Definition covariance (expKer : bool) (pc : nat) (sig_vel_px sig_div_px : R)
    (positions : list d2Vector) : Matrix2D :=
  let sv2 := (sig_vel_px * sig_vel_px)%R in
  let sd2 := (sig_div_px * sig_div_px)%R in
  loop pc (fun i A =>
    loop (pc - i) (fun n A =>
      let j := i + n in
      let dd := norm2 (vsub (nth i positions vzero) (nth j positions vzero)) in
      let k := kernel expKer sv2 sd2 dd in
      gset (gset A i j k) j i k) A)
    (fun _ _ => 0%R).

(** Lines 47-57: the basis from the singular values and vectors. *)
Definition make_basis (pc dc : nat) (S : Matrix1D) (Vt : Matrix2D) : Matrix2D :=
  loop dc (fun d B =>
    let l := sqrt (S d) in
    loop pc (fun p B => gset B p d (l * Vt p d)%R) B)
    (fun _ _ => 0%R).

(** Lines 59-64. *)
Definition make_eigenVals (dc : nat) (S : Matrix1D) : list R :=
  loop dc (fun d ev => set_nth d (S d) ev) (repeat 0%R dc).

Definition GpMotionFit_new {svd : SvdHelper}
    (pc fc : nat) (correlation : nat -> nat -> Image)
    (sig_vel_px sig_div_px sig_acc_px : R) (maxDims : nat)
    (positions perFrameOffsets : list d2Vector)
    (threads : nat) (expKer : bool) : GpMotionFit :=
  let A := covariance expKer pc sig_vel_px sig_div_px positions in
  let USVt := decompose pc A in
  let S := snd (fst USVt) in
  let Vt := snd USVt in
  let dc := if pc <? maxDims then pc else maxDims in
  mkFit expKer pc fc dc threads sig_vel_px sig_div_px sig_acc_px
        correlation positions perFrameOffsets
        (make_basis pc dc S Vt) (make_eigenVals dc S).

(** *** Methods *)

Section Methods.

Variable st : GpMotionFit.

(** The offset [2*(pc + dc*f + d)] of the coefficient of transition [f]
    and mode [d]. *)
Definition slot (fr d : nat) : nat := 2 * (pc st + dc st * fr + d).

Definition offset (fr : nat) : d2Vector := nth fr (perFrameOffsets st) vzero.
Definition eigenVal (d : nat) : R := nth d (eigenVals st) 0%R.

(** [void paramsToPos(x, pos)], lines 198-227; the state is [pos]. *)
Definition paramsToPos (x : list R) : M grid unit :=
  for_ (pc st) (fun p =>
    x0 <- read x (2 * p) ;;
    x1 <- read x (2 * p + 1) ;;
    for_acc (fc st) (mkV x0 x1) (fun fr pp =>
      modify (fun pos => gset pos p fr pp) ;;;
      if fr <? fc st - 1 then
        vel <- for_acc (dc st) vzero (fun d vel =>
                 cx <- read x (slot fr d) ;;
                 cy <- read x (slot fr d + 1) ;;
                 ret (mkV (vx vel + cx * basis st p d)
                          (vy vel + cy * basis st p d))) ;;
        ret (vadd pp vel)
      else ret pp) ;;;
    ret tt).

(** [void posToParams(pos, x)], lines 229-255; the state is [x]. *)
Definition posToParams (pos : grid) : M (list R) unit :=
  for_ (pc st) (fun p =>
    vwrite (2 * p) (vx (pos p 0)) ;;;
    vwrite (2 * p + 1) (vy (pos p 0))) ;;;
  for_ (fc st - 1) (fun fr =>
    for_ (dc st) (fun d =>
      c <- for_acc (pc st) vzero (fun p c =>
             let v := vsub (pos p (fr + 1)) (pos p fr) in
             ret (mkV (vx c + vx v * basis st p d)
                      (vy c + vy v * basis st p d))) ;;
      vwrite (slot fr d) (vx c / eigenVal d) ;;;
      vwrite (slot fr d + 1) (vy c / eigenVal d))).

(** The grid [pos(pc, std::vector<d2Vector>(fc))] that [f] and [grad]
    allocate, filled by [paramsToPos]. *)
Definition expand {St} (x : list R) : M St grid :=
  fun s => match paramsToPos x (fun _ _ => vzero) with
           | Some (_, pos) => Some (pos, s)
           | None => None
           end.

(** The sampling coordinates of particle [p] in frame [fr]. *)
Definition sample {A} (F : Image -> R -> R -> nat -> nat -> bool -> A)
    (pos : grid) (p fr : nat) : A :=
  F (correlation st p fr)
    (vx (pos p fr) + vx (offset fr))%R
    (vy (pos p fr) + vy (offset fr))%R 0 0 true.

(** Lines 72-88 of [f]; the state is [e_tot].  The iterations of the
    parallel loop each add their own [e] atomically; over the reals the
    order of these additions is immaterial and the loop is run in index
    order. *)
Definition f_corr (pos : grid) : M R unit :=
  for_ (pc st) (fun p =>
    e <- for_acc (fc st) 0%R (fun fr e =>
           ret (e - sample cubicXY pos p fr)%R) ;;
    modify (fun e_tot => e_tot + e)%R).

(** Lines 90-97 of [f]. *)
Definition f_reg (x : list R) : M R unit :=
  for_ (fc st - 1) (fun fr =>
    for_ (dc st) (fun d =>
      cx <- read x (slot fr d) ;;
      cy <- read x (slot fr d + 1) ;;
      modify (fun e_tot => e_tot + (cx * cx + cy * cy))%R)).

(** Lines 99-114 of [f]. *)
Definition f_acc (x : list R) : M R unit :=
  if Rlt_dec 0 (sig_acc_px st) then
    for_ (fc st - 2) (fun fr =>
      for_ (dc st) (fun d =>
        cx0 <- read x (slot fr d) ;;
        cy0 <- read x (slot fr d + 1) ;;
        cx1 <- read x (slot (fr + 1) d) ;;
        cy1 <- read x (slot (fr + 1) d + 1) ;;
        let dcx := (cx1 - cx0)%R in
        let dcy := (cy1 - cy0)%R in
        modify (fun e_tot =>
          e_tot + eigenVal d * (dcx * dcx + dcy * dcy)
                  / (sig_acc_px st * sig_acc_px st))%R))
  else ret tt.

(** [double f(x)], lines 67-117. *)
Definition f (x : list R) : option R :=
  option_map fst
    ((pos <- expand x ;;
      f_corr pos ;;;
      f_reg x ;;;
      f_acc x ;;;
      get) 0%R).

(** Lines 125-137 of [grad]: the grid [ccg_pf]. *)
Definition grad_ccg (pos : grid) : grid :=
  loop (pc st) (fun p ccg_pf =>
    loop (fc st) (fun fr ccg_pf =>
      gset ccg_pf p fr (sample cubicXYgrad pos p fr)) ccg_pf)
    (fun _ _ => vzero).

(** Lines 139-142 of [grad]; the state is [gradDest] from here on. *)
Definition grad_zero : M (list R) unit :=
  gradDest <- get ;;
  for_ (length gradDest) (fun i => vwrite i 0%R).

(** Lines 144-149 of [grad]. *)
Definition grad_frame0 (ccg_pf : grid) : M (list R) unit :=
  for_ (pc st) (fun p =>
    for_ (fc st) (fun fr =>
      vmodify (2 * p) (fun o => o + vx (ccg_pf p fr))%R ;;;
      vmodify (2 * p + 1) (fun o => o + vy (ccg_pf p fr))%R)).

(** Lines 151-164 of [grad]. *)
Definition grad_coef (ccg_pf : grid) : M (list R) unit :=
  for_ (dc st) (fun d =>
    for_ (pc st) (fun p =>
      for_down_acc (fc st - 1) vzero (fun fr g =>
        let g' := mkV (vx g + basis st p d * vx (ccg_pf p fr))
                      (vy g + basis st p d * vy (ccg_pf p fr)) in
        vmodify (slot fr d) (fun o => o - vx g')%R ;;;
        vmodify (slot fr d + 1) (fun o => o - vy g')%R ;;;
        ret g') ;;;
      ret tt)).

(** Lines 166-171 of [grad]: the inner bound is [pc]. *)
Definition grad_reg (x : list R) : M (list R) unit :=
  for_ (fc st - 1) (fun fr =>
    for_ (pc st) (fun d =>
      c0 <- read x (slot fr d) ;;
      vmodify (slot fr d) (fun o => o + 2 * c0)%R ;;;
      c1 <- read x (slot fr d + 1) ;;
      vmodify (slot fr d + 1) (fun o => o + 2 * c1)%R)).

(** Lines 173-195 of [grad]. *)
Definition grad_acc (x : list R) : M (list R) unit :=
  if Rlt_dec 0 (sig_acc_px st) then
    let sa2 := (sig_acc_px st * sig_acc_px st)%R in
    for_ (fc st - 2) (fun fr =>
      for_ (dc st) (fun d =>
        cx0 <- read x (slot fr d) ;;
        cy0 <- read x (slot fr d + 1) ;;
        cx1 <- read x (slot (fr + 1) d) ;;
        cy1 <- read x (slot (fr + 1) d + 1) ;;
        let dcx := (cx1 - cx0)%R in
        let dcy := (cy1 - cy0)%R in
        vmodify (slot fr d) (fun o => o - 2 * eigenVal d * dcx / sa2)%R ;;;
        vmodify (slot fr d + 1) (fun o => o - 2 * eigenVal d * dcy / sa2)%R ;;;
        vmodify (slot (fr + 1) d) (fun o => o + 2 * eigenVal d * dcx / sa2)%R ;;;
        vmodify (slot (fr + 1) d + 1)
                (fun o => o + 2 * eigenVal d * dcy / sa2)%R))
  else ret tt.

(** [void grad(x, gradDest)], lines 119-196. *)
Definition grad (x : list R) : M (list R) unit :=
  pos <- expand x ;;
  let ccg_pf := grad_ccg pos in
  grad_zero ;;;
  grad_frame0 ccg_pf ;;;
  grad_coef ccg_pf ;;;
  grad_reg x ;;;
  grad_acc x.

End Methods.

End GpMotionFit.

(** ** Specification-side notions *)

Section Notions.

Context {interp : Interpolation}.
Variable st : GpMotionFit.

(** The expected length [2*pc + 2*dc*(fc-1)] of the parameter vector. *)
Definition expected_len : nat := 2 * pc st + 2 * dc st * (fc st - 1).

(** The 2D coefficient of transition [fr] and mode [d] stored in [x]. *)
Definition coef (x : list R) (fr d : nat) : d2Vector :=
  mkV (nth (slot st fr d) x 0%R) (nth (slot st fr d + 1) x 0%R).

(** The velocity of particle [p] at transition [fr]: the sum over the
    modes of coefficient times basis loading. *)
Definition velocity (x : list R) (p fr : nat) : d2Vector :=
  mkV (sumR (dc st) (fun d => vx (coef x fr d) * basis st p d)%R)
      (sumR (dc st) (fun d => vy (coef x fr d) * basis st p d)%R).

(** The trajectory encoded by [x]: frame 0 is read from the two leading
    slots of the particle, every later frame adds the velocity. *)
Fixpoint trajectory (x : list R) (p fr : nat) : d2Vector :=
  match fr with
  | 0 => mkV (nth (2 * p) x 0%R) (nth (2 * p + 1) x 0%R)
  | S k => vadd (trajectory x p k) (velocity x p k)
  end.

(** The grid after [paramsToPos]: the trajectory inside the [pc] x [fc]
    window, the old contents outside. *)
Definition expanded (x : list R) (pos0 : grid) : grid :=
  fun p fr =>
    if (p <? pc st) && (fr <? fc st) then trajectory x p fr
    else pos0 p fr.

(** The three terms of the energy. *)
Definition E_corr (x : list R) : R :=
  (- sumR (pc st) (fun p => sumR (fc st) (fun fr =>
       sample st cubicXY (trajectory x) p fr)))%R.

Definition E_reg (x : list R) : R :=
  sumR (fc st - 1) (fun fr => sumR (dc st) (fun d =>
    let c := coef x fr d in
    vx c * vx c + vy c * vy c))%R.

Definition E_acc (x : list R) : R :=
  sumR (fc st - 2) (fun fr => sumR (dc st) (fun d =>
    let dlt := vsub (coef x (fr + 1) d) (coef x fr d) in
    eigenVal st d * (vx dlt * vx dlt + vy dlt * vy dlt)
    / (sig_acc_px st * sig_acc_px st)))%R.

(** The value of [f] as a total function, for statements about its
    derivative. *)
Definition f_val (x : list R) : R :=
  match f st x with
  | Some e => e
  | None => 0%R
  end.

(** [g] is the gradient of [f] at [x]: every component is the partial
    derivative of [f] in that coordinate. *)
Definition is_gradient (x g : list R) : Prop :=
  forall i, i < length x ->
    derivable_pt_lim (fun t => f_val (set_nth i t x)) (nth i x 0%R)
                     (nth i g 0%R).

(** The correlation-term contribution that the gradient slot of the
    coefficient of transition [fr] and mode [d] is specified to receive: the
    basis-weighted correlation gradient of the frames [fr+1 .. fc-1], summed
    over the particles. *)
Definition later_frames (ccg_pf : grid) (fr d : nat) : d2Vector :=
  mkV (sumR (pc st) (fun p => sumR (fc st - 1 - fr) (fun n =>
         basis st p d * vx (ccg_pf p (fr + 1 + n)%nat)))%R)
      (sumR (pc st) (fun p => sumR (fc st - 1 - fr) (fun n =>
         basis st p d * vy (ccg_pf p (fr + 1 + n)%nat)))%R).

(** What lines 151-164 subtract from that slot for one particle: the
    basis-weighted correlation gradient of the frames [fr .. fc-2]. *)
Definition carried (ccg_pf : grid) (p fr d : nat) : d2Vector :=
  mkV (sumR (fc st - 1 - fr) (fun n =>
         basis st p d * vx (ccg_pf p (fr + n)%nat)))%R
      (sumR (fc st - 1 - fr) (fun n =>
         basis st p d * vy (ccg_pf p (fr + n)%nat)))%R.

Definition earlier_frames (ccg_pf : grid) (fr d : nat) : d2Vector :=
  mkV (sumR (pc st) (fun p => vx (carried ccg_pf p fr d)))
      (sumR (pc st) (fun p => vy (carried ccg_pf p fr d))).

(** The vector [s] is [s0] with [c fr d] subtracted from the two slots of
    every coefficient, and the same frame-0 slots. *)
Definition coef_shift (s0 s : list R) (c : nat -> nat -> d2Vector) : Prop :=
  length s = length s0 /\
  (forall i, i < 2 * pc st -> nth i s 0%R = nth i s0 0%R) /\
  (forall fr d, fr < fc st - 1 -> d < dc st ->
     nth (slot st fr d) s 0%R = (nth (slot st fr d) s0 0 - vx (c fr d))%R /\
     nth (slot st fr d + 1) s 0%R
       = (nth (slot st fr d + 1) s0 0 - vy (c fr d))%R).

End Notions.

(** The projection of the velocities of transition [fr] on the basis column
    of mode [d] (lines 242-250 of [posToParams]). *)
Definition projection `{Interpolation} (st : GpMotionFit) (pos : grid)
    (fr d : nat) : d2Vector :=
  mkV (sumR (pc st) (fun p =>
         vx (vsub (pos p (fr + 1)%nat) (pos p fr)) * basis st p d)%R)
      (sumR (pc st) (fun p =>
         vy (vsub (pos p (fr + 1)%nat) (pos p fr)) * basis st p d)%R).

(** The vector [s] holds the parameters that [posToParams] computes from
    [pos]: frame-0 positions, then projections over eigenvalues. *)
Definition collapsed `{Interpolation} (st : GpMotionFit) (pos : grid)
    (s : list R) : Prop :=
  length s = expected_len st /\
  (forall p, p < pc st ->
     nth (2 * p) s 0%R = vx (pos p 0) /\
     nth (2 * p + 1) s 0%R = vy (pos p 0)) /\
  (forall fr d, fr < fc st - 1 -> d < dc st ->
     nth (slot st fr d) s 0%R
       = (vx (projection st pos fr d) / eigenVal st d)%R /\
     nth (slot st fr d + 1) s 0%R
       = (vy (projection st pos fr d) / eigenVal st d)%R).

(** The indicator of a test, as a real number. *)
Definition ind (b : bool) : R := if b then 1%R else 0%R.

(** The acceleration term of the energy as [f] adds it. *)
Definition acc_term `{Interpolation} (st : GpMotionFit) (x : list R) : R :=
  if Rlt_dec 0 (sig_acc_px st) then E_acc st x else 0%R.

(** The vector [s] has the length of [x] and agrees with it below [n]. *)
Definition agree (x : list R) (n : nat) (s : list R) : Prop :=
  length s = length x /\ forall i, i < n -> nth i s 0%R = nth i x 0%R.

(** The kernel value of the pair [(i,j)] as lines 34-35 compute it. *)
Definition pair_kernel (expKer : bool) (sig_vel_px sig_div_px : R)
    (positions : list d2Vector) (i j : nat) : R :=
  kernel expKer (sig_vel_px * sig_vel_px) (sig_div_px * sig_div_px)
         (norm2 (vsub (nth i positions vzero) (nth j positions vzero))).

(** The gradient mode of the interpolation returns the partial derivatives
    of the interpolated value in [x] and [y]. *)
Definition interp_exact (interp : Interpolation) : Prop :=
  forall (img : Image) (x y : R) (z n : nat) (w : bool),
    derivable_pt_lim (fun t => cubicXY img t y z n w) x
                     (vx (cubicXYgrad img x y z n w)) /\
    derivable_pt_lim (fun t => cubicXY img x t z n w) y
                     (vy (cubicXYgrad img x y z n w)).

(** ** Fixtures: a linear ramp as interpolated image

    An image whose interpolated value is [a*x + b*y]; its gradient mode
    returns the constant slope [(a,b)]. *)

#[local] Instance ramp : Interpolation := {|
  Image := d2Vector;
  cubicXY := fun img x y _ _ _ => (vx img * x + vy img * y)%R;
  cubicXYgrad := fun img _ _ _ _ _ => img
|}.

(** A decomposition that is exact on diagonal matrices: unit vectors and
    the diagonal as singular values. *)
#[local] Instance diag_svd : SvdHelper := {|
  decompose := fun _ A =>
    (fun i j => if i =? j then 1%R else 0%R,
     fun d => A d d,
     fun i j => if i =? j then 1%R else 0%R)
|}.

(** One particle, two frames, one mode, as the constructor builds them for
    [sig_vel_px = 1] (covariance, singular value and basis entry are 1); the
    ramps of the two frames have slopes [(1,0)] and [(3,0)] and are sampled
    around [(8,8)]. *)
Definition fit_1p2f : GpMotionFit :=
  mkFit false 1 2 1 1 1 1 0
        (fun _ fr => if fr =? 0 then mkV 1 0 else mkV 3 0)
        [vzero] [mkV 8 8; mkV 8 8] (fun _ _ => 1%R) [1%R].

(** The same with three frames and the acceleration term enabled. *)
Definition fit_1p3f : GpMotionFit :=
  mkFit false 1 3 1 1 1 1 2
        (fun _ fr => if fr =? 0 then mkV 1 0 else mkV 3 0)
        [vzero] [mkV 8 8; mkV 8 8; mkV 8 8] (fun _ _ => 1%R) [1%R].

(** Two particles, two frames, one retained mode ([maxDims = 1 < pc]); the
    values of the basis play no role in the accesses. *)
Definition fit_2p2f : GpMotionFit :=
  mkFit false 2 2 1 1 1 1 0
        (fun _ _ => vzero)
        [vzero; mkV 1 0] [mkV 8 8; mkV 8 8] (fun _ _ => 1%R) [1%R].

(** ** Vectors *)

Lemma length_set_nth i v g : length (set_nth i v g) = length g.
Proof.
  revert i; induction g as [|h t IH]; intros [|i]; simpl; auto.
Qed.

Lemma nth_set_nth_eq i v g d :
  i < length g -> nth i (set_nth i v g) d = v.
Proof.
  revert i; induction g as [|h t IH]; intros [|i] Hi; simpl in *;
    try lia; auto.
  apply IH; lia.
Qed.

Lemma nth_set_nth_neq i j v g d :
  j <> i -> nth j (set_nth i v g) d = nth j g d.
Proof.
  revert i j; induction g as [|h t IH]; intros [|i] [|j] Hij; simpl;
    try reflexivity; try lia.
  apply IH; lia.
Qed.

Lemma nth_error_nth_lt (x : list R) i :
  i < length x -> nth_error x i = Some (nth i x 0%R).
Proof.
  intros Hi. apply nth_error_nth'. exact Hi.
Qed.

Lemma nth_ext_R (a b : list R) :
  length a = length b ->
  (forall i, i < length a -> nth i a 0%R = nth i b 0%R) ->
  a = b.
Proof.
  intros Hl Hn. apply (nth_ext a b 0%R 0%R); auto.
Qed.

(** ** Running computations *)

Lemma read_ok {St} (x : list R) i (s : St) :
  i < length x -> read x i s = Some (nth i x 0%R, s).
Proof.
  intros Hi. unfold read. now rewrite nth_error_nth_lt.
Qed.

Lemma read_fail {St} (x : list R) i (s : St) :
  length x <= i -> read x i s = None.
Proof.
  intros Hi. unfold read. apply nth_error_None in Hi. now rewrite Hi.
Qed.

Lemma vmodify_ok i h (g : list R) :
  i < length g ->
  vmodify i h g = Some (tt, set_nth i (h (nth i g 0%R)) g).
Proof.
  intros Hi. unfold vmodify. now rewrite nth_error_nth_lt.
Qed.

Lemma vwrite_ok i a (g : list R) :
  i < length g -> vwrite i a g = Some (tt, set_nth i a g).
Proof.
  intros Hi. unfold vwrite. now rewrite vmodify_ok.
Qed.

Lemma bind_some {St A B} (m : M St A) (k : A -> M St B) s a s' :
  m s = Some (a, s') -> bind m k s = k a s'.
Proof.
  intros H. unfold bind. now rewrite H.
Qed.

Lemma bind_none {St A B} (m : M St A) (k : A -> M St B) s :
  m s = None -> bind m k s = None.
Proof.
  intros H. unfold bind. now rewrite H.
Qed.

Lemma bind_read {St B} (x : list R) i (k : R -> M St B) s :
  i < length x -> bind (read x i) k s = k (nth i x 0%R) s.
Proof.
  intros Hi. apply bind_some. now apply read_ok.
Qed.

Lemma bind_vmodify {B} i h (k : unit -> M (list R) B) g :
  i < length g ->
  bind (vmodify i h) k g = k tt (set_nth i (h (nth i g 0%R)) g).
Proof.
  intros Hi. apply bind_some. now apply vmodify_ok.
Qed.

Lemma bind_vwrite {B} i a (k : unit -> M (list R) B) g :
  i < length g -> bind (vwrite i a) k g = k tt (set_nth i a g).
Proof.
  intros Hi. apply bind_some. now apply vwrite_ok.
Qed.

Lemma bind_modify {St B} (h : St -> St) (k : unit -> M St B) s :
  bind (modify h) k s = k tt (h s).
Proof. reflexivity. Qed.

(** The loop rule (total correctness): an invariant that holds initially
    and that every iteration re-establishes, without failing, holds at the
    end, and the loop does not fail. *)
Lemma for_acc_inv {St A} (I : nat -> A -> St -> Prop) n
    (body : nat -> A -> M St A) a0 s0 :
  I 0 a0 s0 ->
  (forall k a s, k < n -> I k a s ->
     exists a' s', body k a s = Some (a', s') /\ I (S k) a' s') ->
  exists a' s', for_acc n a0 body s0 = Some (a', s') /\ I n a' s'.
Proof.
  intros H0 Hstep. induction n as [|n IH].
  - exists a0, s0. split; [reflexivity | exact H0].
  - destruct IH as (a & s & Hrun & Hinv).
    { intros k a s Hk. apply Hstep. lia. }
    destruct (Hstep n a s (Nat.lt_succ_diag_r n) Hinv) as (a' & s' & Hb & Hinv').
    exists a', s'. split; [|exact Hinv'].
    simpl. rewrite (bind_some _ _ _ _ _ Hrun). exact Hb.
Qed.

Lemma for_inv {St} (I : nat -> St -> Prop) n (body : nat -> M St unit) s0 :
  I 0 s0 ->
  (forall k s, k < n -> I k s ->
     exists s', body k s = Some (tt, s') /\ I (S k) s') ->
  exists s', for_ n body s0 = Some (tt, s') /\ I n s'.
Proof.
  intros H0 Hstep.
  destruct (for_acc_inv (fun k _ s => I k s) n (fun k _ => body k) tt s0 H0)
    as ([] & s' & Hrun & Hinv).
  - intros k _ s Hk Hi. destruct (Hstep k s Hk Hi) as (s' & Hb & Hi').
    exists tt, s'. auto.
  - exists s'. auto.
Qed.

(** Apply the loop rule to the loop at the head of the goal. *)
Tactic Notation "loop_inv" constr(I) "as" simple_intropattern(pat) :=
  match goal with
  | |- context [bind (for_acc ?n ?a0 ?body) _ ?s] =>
      destruct (for_acc_inv I n body a0 s) as pat
  | |- context [for_acc ?n ?a0 ?body ?s] =>
      destruct (for_acc_inv I n body a0 s) as pat
  end.

(** Turn boolean comparisons of indices in the context into propositions. *)
Ltac reflect_nat :=
  repeat match goal with
         | H : (_ =? _) = true |- _ => apply Nat.eqb_eq in H
         | H : (_ =? _) = false |- _ => apply Nat.eqb_neq in H
         | H : (_ <? _) = true |- _ => apply Nat.ltb_lt in H
         | H : (_ <? _) = false |- _ => apply Nat.ltb_ge in H
         | H : (_ <=? _) = true |- _ => apply Nat.leb_le in H
         | H : (_ <=? _) = false |- _ => apply Nat.leb_gt in H
         end.

(** Decide every boolean index test of the goal and close the cases that
    are contradictory or trivial. *)
Ltac case_nat :=
  repeat match goal with
         | |- context [?a =? ?b] => destruct (a =? b) eqn:?
         | |- context [?a <? ?b] => destruct (a <? b) eqn:?
         | |- context [?a <=? ?b] => destruct (a <=? b) eqn:?
         end;
  simpl; try reflexivity; reflect_nat; subst; try lia; try reflexivity.

(** The loop rule for a descending loop: the invariant is indexed by the
    number of iterations that remain. *)
Lemma for_down_acc_inv {St A} (I : nat -> A -> St -> Prop) n
    (body : nat -> A -> M St A) a0 s0 :
  I n a0 s0 ->
  (forall k a s, k < n -> I (S k) a s ->
     exists a' s', body k a s = Some (a', s') /\ I k a' s') ->
  exists a' s', for_down_acc n a0 body s0 = Some (a', s') /\ I 0 a' s'.
Proof.
  revert a0 s0. induction n as [|n IH]; intros a0 s0 H0 Hstep.
  - exists a0, s0. split; [reflexivity | exact H0].
  - destruct (Hstep n a0 s0 (Nat.lt_succ_diag_r n) H0) as (a & s & Hb & Hinv).
    destruct (IH a s Hinv) as (a' & s' & Hrun & Hinv').
    { intros k a1 s1 Hk. apply Hstep. lia. }
    exists a', s'. split; [|exact Hinv'].
    simpl. rewrite (bind_some _ _ _ _ _ Hb). exact Hrun.
Qed.

Tactic Notation "down_loop_inv" constr(I) "as" simple_intropattern(pat) :=
  match goal with
  | |- context [bind (for_down_acc ?n ?a0 ?body) _ ?s] =>
      destruct (for_down_acc_inv I n body a0 s) as pat
  | |- context [for_down_acc ?n ?a0 ?body ?s] =>
      destruct (for_down_acc_inv I n body a0 s) as pat
  end.

(** A loop one of whose iterations fails in every state fails. *)
Lemma for_acc_fail {St A} n (body : nat -> A -> M St A) a0 s0 k :
  k < n -> (forall a s, body k a s = None) ->
  for_acc n a0 body s0 = None.
Proof.
  intros Hk Hfail. induction n as [|n IH]; [lia|].
  simpl. unfold bind.
  destruct (for_acc n a0 body s0) as [[a s]|] eqn:E; [|reflexivity].
  destruct (Nat.eq_dec k n) as [->|Hne]; [apply Hfail|].
  assert (Hlt : k < n) by lia. specialize (IH Hlt). discriminate.
Qed.

Lemma for_fail {St} n (body : nat -> M St unit) s0 k :
  k < n -> (forall s, body k s = None) -> for_ n body s0 = None.
Proof.
  intros Hk Hfail. apply (for_acc_fail n _ tt s0 k Hk). intros _ s. apply Hfail.
Qed.

(** A loop whose body only computes. *)
Lemma for_acc_ret {St A} n (h : nat -> A -> A) a0 (s : St) :
  for_acc n a0 (fun k a => ret (h k a)) s = Some (loop n h a0, s).
Proof.
  induction n as [|n IH]; [reflexivity|].
  simpl. now rewrite (bind_some _ _ _ _ _ IH).
Qed.

(** ** Sums *)

Lemma sumR_ext n F G :
  (forall k, k < n -> F k = G k) -> sumR n F = sumR n G.
Proof.
  induction n as [|n IH]; intros H; simpl; [reflexivity|].
  rewrite IH, H by auto with arith. reflexivity.
Qed.

Lemma sumR_plus n F G :
  sumR n (fun k => F k + G k)%R = (sumR n F + sumR n G)%R.
Proof.
  induction n as [|n IH]; simpl; [lra|]. rewrite IH. lra.
Qed.

Lemma sumR_scal_l n c F :
  sumR n (fun k => c * F k)%R = (c * sumR n F)%R.
Proof.
  induction n as [|n IH]; simpl; [lra|]. rewrite IH. lra.
Qed.

Lemma sumR_scal_r n c F :
  sumR n (fun k => F k * c)%R = (sumR n F * c)%R.
Proof.
  induction n as [|n IH]; simpl; [lra|]. rewrite IH. lra.
Qed.

Lemma sumR_zero n F :
  (forall k, k < n -> F k = 0%R) -> sumR n F = 0%R.
Proof.
  induction n as [|n IH]; intros H; simpl; [reflexivity|].
  rewrite IH, H by auto with arith. lra.
Qed.

Lemma sumR_swap n m (F : nat -> nat -> R) :
  sumR n (fun i => sumR m (fun j => F i j)) =
  sumR m (fun j => sumR n (fun i => F i j)).
Proof.
  induction n as [|n IH]; simpl.
  - symmetry. apply sumR_zero. reflexivity.
  - rewrite IH. now rewrite <- sumR_plus.
Qed.

(** A sum of which only the term at [d] does not vanish. *)
Lemma sumR_single n d F :
  d < n -> (forall k, k < n -> k <> d -> F k = 0%R) -> sumR n F = F d.
Proof.
  induction n as [|n IH]; intros Hd Hz; [lia|]. simpl.
  destruct (Nat.eq_dec d n) as [->|Hne].
  - rewrite sumR_zero; [lra|]. intros k Hk. apply Hz; lia.
  - rewrite IH by (try lia; intros k Hk Hkd; apply Hz; lia).
    rewrite (Hz n) by lia. lra.
Qed.

(** ** The parameter layout *)

Section Layout.

Context {interp : Interpolation}.
Variable st : GpMotionFit.

Lemma slot_bound fr d :
  fr < fc st - 1 -> d < dc st -> slot st fr d + 1 < expected_len st.
Proof.
  unfold slot, expected_len. intros Hf Hd.
  pose proof (Nat.mul_le_mono_l (fr + 1) (fc st - 1) (dc st)) as Hm.
  lia.
Qed.

Lemma frame0_bound p : p < pc st -> 2 * p + 1 < expected_len st.
Proof.
  unfold expected_len. generalize (2 * dc st * (fc st - 1)). lia.
Qed.

(** Every index of the vector is a frame-0 slot or a coefficient slot. *)
Lemma slot_cover i :
  i < expected_len st ->
  (exists p, p < pc st /\ (i = 2 * p \/ i = 2 * p + 1)) \/
  (exists fr d, fr < fc st - 1 /\ d < dc st /\
                (i = slot st fr d \/ i = slot st fr d + 1)).
Proof.
  unfold expected_len, slot. intros Hi.
  destruct (Nat.lt_ge_cases i (2 * pc st)) as [Hlt|Hge].
  - left. exists (i / 2). pose proof (Nat.div_mod_eq i 2) as E.
    pose proof (Nat.mod_upper_bound i 2 ltac:(lia)) as B.
    split; [apply Nat.Div0.div_lt_upper_bound; lia | lia].
  - right.
    remember (fc st - 1) as n eqn:En.
    assert (Hdc : 0 < dc st) by nia.
    set (k := (i - 2 * pc st) / 2).
    pose proof (Nat.div_mod_eq (i - 2 * pc st) 2) as E.
    pose proof (Nat.mod_upper_bound (i - 2 * pc st) 2 ltac:(lia)) as B.
    fold k in E.
    assert (Hk : k < dc st * n) by nia.
    exists (k / dc st), (k mod dc st).
    pose proof (Nat.div_mod_eq k (dc st)) as E'.
    pose proof (Nat.mod_upper_bound k (dc st) ltac:(lia)) as B'.
    split; [apply Nat.Div0.div_lt_upper_bound; lia|].
    split; [exact B'|]. lia.
Qed.

End Layout.

(** ** Expansion of the parameters into positions *)

Section Expand.

Context {interp : Interpolation}.
Variable st : GpMotionFit.
Variable x : list R.
Hypothesis Hlen : length x = expected_len st.

Lemma velocity_loop {St} p fr (s : St) :
  fr < fc st - 1 ->
  for_acc (dc st) vzero (fun d vel =>
    cx <- read x (slot st fr d) ;;
    cy <- read x (slot st fr d + 1) ;;
    ret (mkV (vx vel + cx * basis st p d)
             (vy vel + cy * basis st p d))) s
  = Some (velocity st x p fr, s).
Proof.
  intros Hf.
  loop_inv (fun k vel (s' : St) => s' = s /\
       vel = mkV (sumR k (fun d => vx (coef st x fr d) * basis st p d)%R)
                 (sumR k (fun d => vy (coef st x fr d) * basis st p d)%R))
    as (vel & s' & Hrun & -> & ->).
  - split; reflexivity.
  - intros k vel s' Hk [-> ->].
    pose proof (slot_bound st fr k Hf Hk) as Hb.
    do 2 eexists. split.
    + rewrite !bind_read by lia. reflexivity.
    + split; reflexivity.
  - exact Hrun.
Qed.

Lemma paramsToPos_run pos0 :
  exists pos, paramsToPos st x pos0 = Some (tt, pos) /\
              forall p fr, pos p fr = expanded st x pos0 p fr.
Proof.
  unfold paramsToPos.
  apply (for_inv (fun k pos => forall p fr,
    pos p fr = if (p <? k) && (fr <? fc st) then trajectory st x p fr
               else pos0 p fr)).
  - intros p fr. reflexivity.
  - intros p pos Hp Hpos.
    pose proof (frame0_bound st p Hp) as Hb.
    rewrite !bind_read by lia.
    loop_inv (fun k pp (pos' : grid) =>
         (k < fc st -> pp = trajectory st x p k) /\
         forall p' fr, pos' p' fr =
           if ((p' <? p) && (fr <? fc st)) || ((p' =? p) && (fr <? k))
           then trajectory st x p' fr else pos0 p' fr)
      as (pp & pos' & Hrun & _ & Hpos').
    + split; [reflexivity|]. intros p' fr. rewrite Hpos. case_nat.
    + intros k pp pos1 Hk [Hpp Hpos1]. specialize (Hpp Hk). subst pp.
      rewrite bind_modify.
      destruct (k <? fc st - 1) eqn:Ek.
      * apply Nat.ltb_lt in Ek.
        rewrite (bind_some _ _ _ _ _ (velocity_loop p k _ Ek)).
        do 2 eexists. split; [reflexivity|]. split; [reflexivity|].
        intros p' fr. unfold gset. rewrite Hpos1. case_nat.
      * apply Nat.ltb_ge in Ek.
        do 2 eexists. split; [reflexivity|]. split; [lia|].
        intros p' fr. unfold gset. rewrite Hpos1. case_nat.
    + rewrite (bind_some _ _ _ _ _ Hrun).
      eexists. split; [reflexivity|].
      intros p' fr. rewrite Hpos'. case_nat.
Qed.

End Expand.


(** ** The energy *)

Section Energy.

Context {interp : Interpolation}.
Variable st : GpMotionFit.

(** A loop that adds [F k] to the accumulator in iteration [k]. *)
Lemma for_sum n (body : nat -> M R unit) F s0 :
  (forall k s, k < n -> body k s = Some (tt, (s + F k)%R)) ->
  for_ n body s0 = Some (tt, (s0 + sumR n F)%R).
Proof.
  intros Hbody.
  destruct (for_inv (fun k s => s = (s0 + sumR k F)%R) n body s0)
    as (s' & Hrun & ->).
  - simpl. lra.
  - intros k s Hk ->. eexists. split; [apply Hbody, Hk|]. simpl. lra.
  - exact Hrun.
Qed.

Lemma loop_minus n F e0 :
  loop n (fun k e => e - F k)%R e0 = (e0 - sumR n F)%R.
Proof.
  induction n as [|n IH]; simpl; [lra|]. rewrite IH. lra.
Qed.

Variable x : list R.
Hypothesis Hlen : length x = expected_len st.

Lemma expand_run {St} (s : St) :
  exists pos, expand st x s = Some (pos, s) /\
    forall p fr, p < pc st -> fr < fc st -> pos p fr = trajectory st x p fr.
Proof.
  destruct (paramsToPos_run st x Hlen (fun _ _ => vzero))
    as (pos & Hrun & Hpos).
  exists pos. split.
  - unfold expand. now rewrite Hrun.
  - intros p fr Hp Hf. rewrite Hpos. unfold expanded.
    apply Nat.ltb_lt in Hp, Hf. now rewrite Hp, Hf.
Qed.

Lemma f_corr_run pos e0 :
  (forall p fr, p < pc st -> fr < fc st -> pos p fr = trajectory st x p fr) ->
  f_corr st pos e0 = Some (tt, (e0 + E_corr st x)%R).
Proof.
  intros Hpos. unfold f_corr, E_corr.
  rewrite (for_sum _ _ (fun p => - sumR (fc st) (fun fr =>
             sample st cubicXY (trajectory st x) p fr))%R).
  - f_equal. f_equal. f_equal. clear. induction (pc st); simpl; lra.
  - intros p s Hp.
    rewrite (bind_some _ _ _ _ _ (for_acc_ret _ _ _ _)). rewrite loop_minus.
    unfold modify. f_equal. f_equal.
    rewrite (sumR_ext _ _ (fun fr => sample st cubicXY (trajectory st x) p fr)).
    + lra.
    + intros fr Hf. unfold sample. now rewrite Hpos.
Qed.

Lemma f_reg_run e0 :
  f_reg st x e0 = Some (tt, (e0 + E_reg st x)%R).
Proof.
  unfold f_reg, E_reg. apply for_sum. intros fr s Hf.
  apply for_sum. intros d s' Hd.
  pose proof (slot_bound st fr d Hf Hd) as Hb.
  rewrite !bind_read by lia. reflexivity.
Qed.

Lemma f_acc_run e0 :
  f_acc st x e0 =
  Some (tt, (e0 + if Rlt_dec 0 (sig_acc_px st) then E_acc st x else 0)%R).
Proof.
  unfold f_acc, E_acc. destruct (Rlt_dec 0 (sig_acc_px st)) as [Hpos|Hneg].
  - apply for_sum. intros fr s Hf. apply for_sum. intros d s' Hd.
    assert (Hf0 : fr < fc st - 1) by lia.
    assert (Hf1 : fr + 1 < fc st - 1) by lia.
    pose proof (slot_bound st fr d Hf0 Hd) as Hb0.
    pose proof (slot_bound st (fr + 1) d Hf1 Hd) as Hb1.
    rewrite !bind_read by lia. reflexivity.
  - unfold ret. f_equal. f_equal. lra.
Qed.

End Energy.

(** C5.  For [x] of the expected length, [f] returns the sum of three
    terms: the negated value of [cubicXY] on the image of particle [p] and
    frame [fr] at the position [pos[p][fr]] that [paramsToPos] computes
    from [x], plus [perFrameOffsets[fr]], summed over all particles and
    frames; [cx^2 + cy^2] of the coefficient at offset [2*(pc + dc*f + d)],
    summed over the transitions [f <= fc-2] and the modes [d < dc]; and,
    only when [sig_acc_px > 0], [eigenVals[d] * (dcx^2 + dcy^2) /
    sig_acc_px^2] summed over the pairs of consecutive transitions and the
    modes, [dc] being the difference of the coefficients of the mode at the
    two transitions. *)
Theorem f_three_terms `{Interpolation} (st : GpMotionFit) (x : list R)
    (pos0 : grid) :
  length x = expected_len st ->
  exists pos,
    paramsToPos st x pos0 = Some (tt, pos) /\
    f st x = Some
      (- sumR (pc st) (fun p => sumR (fc st) (fun fr =>
            cubicXY (correlation st p fr)
              (vx (pos p fr) + vx (nth fr (perFrameOffsets st) vzero))
              (vy (pos p fr) + vy (nth fr (perFrameOffsets st) vzero))
              0 0 true))
       + sumR (fc st - 1) (fun fr => sumR (dc st) (fun d =>
            nth (2 * (pc st + dc st * fr + d)) x 0
            * nth (2 * (pc st + dc st * fr + d)) x 0
            + nth (2 * (pc st + dc st * fr + d) + 1) x 0
              * nth (2 * (pc st + dc st * fr + d) + 1) x 0))
       + if Rlt_dec 0 (sig_acc_px st)
         then sumR (fc st - 2) (fun fr => sumR (dc st) (fun d =>
                nth d (eigenVals st) 0
                * ((nth (2 * (pc st + dc st * (fr + 1) + d)) x 0
                    - nth (2 * (pc st + dc st * fr + d)) x 0)
                   * (nth (2 * (pc st + dc st * (fr + 1) + d)) x 0
                      - nth (2 * (pc st + dc st * fr + d)) x 0)
                   + (nth (2 * (pc st + dc st * (fr + 1) + d) + 1) x 0
                      - nth (2 * (pc st + dc st * fr + d) + 1) x 0)
                     * (nth (2 * (pc st + dc st * (fr + 1) + d) + 1) x 0
                        - nth (2 * (pc st + dc st * fr + d) + 1) x 0))
                / (sig_acc_px st * sig_acc_px st)))
         else 0)%R.
Proof.
  intros Hlen.
  destruct (paramsToPos_run st x Hlen pos0) as (pos & Hrun & Hwin).
  exists pos. split; [exact Hrun|].
  unfold f. destruct (expand_run st x Hlen 0%R) as (pos1 & Hex & Hpos1).
  rewrite (bind_some _ _ _ _ _ Hex).
  rewrite (bind_some _ _ _ _ _ (f_corr_run st x pos1 _ Hpos1)).
  rewrite (bind_some _ _ _ _ _ (f_reg_run st x Hlen _)).
  rewrite (bind_some _ _ _ _ _ (f_acc_run st x Hlen _)).
  unfold get. cbn [option_map fst]. f_equal.
  match goal with
  | |- _ = (?a + ?b + if _ then ?c else _)%R =>
      assert (Ecorr : E_corr st x = a);
      [| assert (Ereg : E_reg st x = b) by reflexivity;
         assert (Eacc : E_acc st x = c) by reflexivity ]
  end.
  - unfold E_corr. f_equal. apply sumR_ext. intros p Hp.
    apply sumR_ext. intros fr Hf. unfold sample, offset.
    rewrite Hwin. unfold expanded.
    apply Nat.ltb_lt in Hp, Hf. rewrite Hp, Hf. reflexivity.
  - rewrite Ecorr, Ereg, Eacc.
    destruct (Rlt_dec 0 (sig_acc_px st)); lra.
Qed.

(** ** Collapse of positions into parameters *)

Section Collapse.

Context {interp : Interpolation}.
Variable st : GpMotionFit.
Variable x : list R.
Hypothesis Hlen : length x = expected_len st.

Lemma agree_write2 n s a b :
  agree x n s -> n + 1 < length x ->
  a = nth n x 0%R -> b = nth (n + 1) x 0%R ->
  agree x (n + 2) (set_nth (n + 1) b (set_nth n a s)).
Proof.
  intros [Hl Hn] Hb -> ->. split.
  - now rewrite !length_set_nth.
  - intros i Hi.
    destruct (Nat.eq_dec i (n + 1)) as [->|H1].
    + rewrite nth_set_nth_eq; [reflexivity | rewrite length_set_nth; lia].
    + rewrite nth_set_nth_neq by exact H1.
      destruct (Nat.eq_dec i n) as [->|H0].
      * rewrite nth_set_nth_eq; [reflexivity | lia].
      * rewrite nth_set_nth_neq by exact H0. apply Hn. lia.
Qed.

Lemma agree_all s : agree x (expected_len st) s -> s = x.
Proof.
  intros [Hl Hn]. apply nth_ext_R; [exact Hl|].
  intros i Hi. apply Hn. lia.
Qed.

(** The projection loop of [posToParams] (lines 242-250) as sums. *)
Lemma project_loop (pos : grid) fr d n :
  loop n (fun p c =>
    let v := vsub (pos p (fr + 1)) (pos p fr) in
    mkV (vx c + vx v * basis st p d) (vy c + vy v * basis st p d)) vzero
  = mkV (sumR n (fun p => vx (vsub (pos p (fr + 1)%nat) (pos p fr))
                          * basis st p d)%R)
        (sumR n (fun p => vy (vsub (pos p (fr + 1)%nat) (pos p fr))
                          * basis st p d)%R).
Proof.
  induction n as [|n IH]; [reflexivity|]. simpl in *. now rewrite IH.
Qed.

(** The retained basis columns are orthogonal with squared norm
    [eigenVals[d]], and the retained eigenvalues are positive. *)
Hypothesis Hev : forall d, d < dc st -> (0 < eigenVal st d)%R.
Hypothesis Horth : forall d d', d < dc st -> d' < dc st ->
  sumR (pc st) (fun p => basis st p d * basis st p d')%R
  = if d =? d' then eigenVal st d else 0%R.

(** Projecting the velocities of a transition on a basis column gives back
    the coefficient of that mode, scaled by the eigenvalue. *)
Lemma project_velocity (sel : d2Vector -> R) fr d :
  d < dc st ->
  sumR (pc st) (fun p =>
    sumR (dc st) (fun d' => sel (coef st x fr d') * basis st p d') * basis st p d)%R
  = (sel (coef st x fr d) * eigenVal st d)%R.
Proof.
  intros Hd.
  rewrite (sumR_ext _ _ (fun p => sumR (dc st) (fun d' =>
             sel (coef st x fr d') * (basis st p d' * basis st p d))%R)).
  2:{ intros p _. rewrite <- sumR_scal_r. apply sumR_ext. intros; lra. }
  rewrite sumR_swap.
  rewrite (sumR_ext _ _ (fun d' =>
             sel (coef st x fr d') * (if d' =? d then eigenVal st d' else 0))%R).
  2:{ intros d' Hd'. rewrite sumR_scal_l. now rewrite Horth. }
  rewrite (sumR_single _ d) by
    (try exact Hd; intros k _ Hk; apply Nat.eqb_neq in Hk; rewrite Hk; lra).
  now rewrite Nat.eqb_refl.
Qed.

Lemma posToParams_run (pos : grid) (x0 : list R) :
  1 <= fc st ->
  length x0 = expected_len st ->
  (forall p fr, p < pc st -> fr < fc st -> pos p fr = trajectory st x p fr) ->
  posToParams st pos x0 = Some (tt, x).
Proof.
  intros Hfc Hl0 Hpos. unfold posToParams.
  destruct (for_inv (fun k s => agree x (2 * k) s) (pc st)
              (fun p => vwrite (2 * p) (vx (pos p 0)) ;;;
                        vwrite (2 * p + 1) (vy (pos p 0))) x0)
    as (s1 & Hrun1 & Hs1).
  { split; [congruence | intros i Hi; lia]. }
  { intros p s Hp Hs. pose proof (frame0_bound st p Hp) as Hb.
    destruct Hs as [Hl Hn].
    rewrite bind_vwrite by lia.
    rewrite vwrite_ok by (rewrite length_set_nth; lia).
    eexists. split; [reflexivity|].
    replace (2 * S p) with (2 * p + 2) by lia.
    apply agree_write2; [split; assumption | lia | |];
      rewrite Hpos by lia; reflexivity. }
  rewrite (bind_some _ _ _ _ _ Hrun1).
  destruct (for_inv (fun k s => agree x (2 * (pc st + dc st * k)) s) (fc st - 1)
              (fun fr => for_ (dc st) (fun d =>
                 c <- for_acc (pc st) vzero (fun p c =>
                        let v := vsub (pos p (fr + 1)) (pos p fr) in
                        ret (mkV (vx c + vx v * basis st p d)
                                 (vy c + vy v * basis st p d))) ;;
                 vwrite (slot st fr d) (vx c / eigenVal st d) ;;;
                 vwrite (slot st fr d + 1) (vy c / eigenVal st d))) s1)
    as (s2 & Hrun2 & Hs2).
  { replace (2 * (pc st + dc st * 0)) with (2 * pc st) by lia. exact Hs1. }
  { intros fr s Hf Hs.
    destruct (for_inv (fun k s => agree x (slot st fr k) s) (dc st)
                (fun d =>
                 c <- for_acc (pc st) vzero (fun p c =>
                        let v := vsub (pos p (fr + 1)) (pos p fr) in
                        ret (mkV (vx c + vx v * basis st p d)
                                 (vy c + vy v * basis st p d))) ;;
                 vwrite (slot st fr d) (vx c / eigenVal st d) ;;;
                 vwrite (slot st fr d + 1) (vy c / eigenVal st d)) s)
      as (s' & Hrun & Hs').
    - unfold slot. replace (pc st + dc st * fr + 0) with (pc st + dc st * fr)
        by lia. exact Hs.
    - intros d sd Hd Hsd. pose proof (slot_bound st fr d Hf Hd) as Hb.
      rewrite (bind_some _ _ _ _ _ (for_acc_ret _ _ _ _)).
      rewrite project_loop. cbn [vx vy].
      destruct Hsd as [Hl Hn].
      rewrite bind_vwrite by lia.
      rewrite vwrite_ok by (rewrite length_set_nth; lia).
      eexists. split; [reflexivity|].
      replace (slot st fr (S d)) with (slot st fr d + 2) by (unfold slot; lia).
      assert (Hproj : forall sel, sel = vx \/ sel = vy ->
                sumR (pc st) (fun p => sel (vsub (pos p (fr + 1)%nat) (pos p fr))
                                       * basis st p d)%R
                = (sel (coef st x fr d) * eigenVal st d)%R).
      { intros sel Hsel. rewrite <- (project_velocity sel fr d Hd).
        apply sumR_ext. intros p Hp. f_equal.
        rewrite !Hpos by lia. replace (fr + 1) with (S fr) by lia.
        destruct Hsel as [-> | ->]; simpl; lra. }
      pose proof (Hev d Hd) as Hpos_ev.
      apply agree_write2; [split; assumption | lia | |].
      + rewrite (Hproj vx) by auto. simpl. field. lra.
      + rewrite (Hproj vy) by auto. simpl. field. lra.
    - eexists. split; [exact Hrun|].
      replace (2 * (pc st + dc st * S fr)) with (slot st fr (dc st))
        by (unfold slot; lia).
      exact Hs'. }
  transitivity (Some (tt, s2)); [exact Hrun2|].
  f_equal. f_equal. apply agree_all.
  unfold expected_len.
  replace (2 * pc st + 2 * dc st * (fc st - 1))
    with (2 * (pc st + dc st * (fc st - 1))) by lia.
  exact Hs2.
Qed.

End Collapse.




Lemma f_three_terms_witness :
  exists pos,
    paramsToPos fit_1p3f [1; 2; 3; 4; 5; 6]%R (fun _ _ => vzero)
      = Some (tt, pos) /\
    f fit_1p3f [1; 2; 3; 4; 5; 6]%R = Some
      (- sumR 1 (fun p => sumR 3 (fun fr =>
            cubicXY (correlation fit_1p3f p fr)
              (vx (pos p fr) + vx (nth fr (perFrameOffsets fit_1p3f) vzero))
              (vy (pos p fr) + vy (nth fr (perFrameOffsets fit_1p3f) vzero))
              0 0 true))
       + sumR 2 (fun fr => sumR 1 (fun d =>
            nth (2 * (1 + 1 * fr + d)) [1; 2; 3; 4; 5; 6] 0
            * nth (2 * (1 + 1 * fr + d)) [1; 2; 3; 4; 5; 6] 0
            + nth (2 * (1 + 1 * fr + d) + 1) [1; 2; 3; 4; 5; 6] 0
              * nth (2 * (1 + 1 * fr + d) + 1) [1; 2; 3; 4; 5; 6] 0))
       + if Rlt_dec 0 (sig_acc_px fit_1p3f)
         then sumR 1 (fun fr => sumR 1 (fun d =>
                nth d (eigenVals fit_1p3f) 0
                * ((nth (2 * (1 + 1 * (fr + 1) + d)) [1; 2; 3; 4; 5; 6] 0
                    - nth (2 * (1 + 1 * fr + d)) [1; 2; 3; 4; 5; 6] 0)
                   * (nth (2 * (1 + 1 * (fr + 1) + d)) [1; 2; 3; 4; 5; 6] 0
                      - nth (2 * (1 + 1 * fr + d)) [1; 2; 3; 4; 5; 6] 0)
                   + (nth (2 * (1 + 1 * (fr + 1) + d) + 1)
                          [1; 2; 3; 4; 5; 6] 0
                      - nth (2 * (1 + 1 * fr + d) + 1) [1; 2; 3; 4; 5; 6] 0)
                     * (nth (2 * (1 + 1 * (fr + 1) + d) + 1)
                            [1; 2; 3; 4; 5; 6] 0
                        - nth (2 * (1 + 1 * fr + d) + 1)
                              [1; 2; 3; 4; 5; 6] 0))
                / (sig_acc_px fit_1p3f * sig_acc_px fit_1p3f)))
         else 0)%R.
Proof.
  apply (f_three_terms fit_1p3f). reflexivity.
Defined.

(** ** The gradient *)

Section Gradient.

Context {interp : Interpolation}.
Variable st : GpMotionFit.

(** Lines 139-142 leave a vector of zeros of the same length. *)
Lemma grad_zero_run (g : list R) :
  grad_zero g = Some (tt, repeat 0%R (length g)).
Proof.
  unfold grad_zero. unfold get at 1. unfold bind at 1.
  destruct (for_inv
    (fun k s => length s = length g /\ forall i, i < k -> nth i s 0%R = 0%R)
    (length g) (fun i => vwrite i 0%R) g) as (s & Hrun & Hl & Hz).
  - split; [reflexivity | intros i Hi; lia].
  - intros k s Hk [Hl Hz]. rewrite vwrite_ok by lia.
    eexists. split; [reflexivity|]. split; [now rewrite length_set_nth|].
    intros i Hi. destruct (Nat.eq_dec i k) as [->|Hne].
    + apply nth_set_nth_eq. lia.
    + rewrite nth_set_nth_neq by exact Hne. apply Hz. lia.
  - rewrite Hrun. f_equal. f_equal. apply nth_ext_R.
    + now rewrite repeat_length.
    + intros i Hi. rewrite nth_repeat. apply Hz. lia.
Qed.

(** The regularisation loop of [grad] runs its inner index up to [pc]: with
    fewer retained modes than particles and at least one transition, its
    last iteration reads [x] at or beyond the expected length. *)
Lemma grad_reg_oob (x g : list R) :
  dc st < pc st -> 2 <= fc st -> length x = expected_len st ->
  grad_reg st x g = None.
Proof.
  intros Hdc Hfc Hlen. unfold grad_reg.
  apply (for_fail _ _ _ (fc st - 2)); [lia|]. intros s.
  apply (for_fail _ _ _ (pc st - 1)); [lia|]. intros s'.
  apply bind_none. apply read_fail.
  rewrite Hlen. unfold slot, expected_len.
  replace (fc st - 1) with (S (fc st - 2)) by lia.
  rewrite Nat.mul_succ_r. lia.
Qed.

Lemma grad_oob (x g : list R) :
  dc st < pc st -> 2 <= fc st -> length x = expected_len st ->
  grad st x g = None.
Proof.
  intros Hdc Hfc Hlen. unfold grad, bind.
  repeat match goal with
         | |- context [grad_reg st x ?s] =>
             rewrite (grad_reg_oob x s) by assumption
         | |- match ?m with Some _ => _ | None => None end = None =>
             destruct m as [[? ?]|]; [|reflexivity]
         end.
  reflexivity.
Qed.

End Gradient.

(** C10.  [grad] first overwrites every entry of [gradDest] with zero, so
    two calls with the same [x] on vectors of the expected length return
    the same result, whatever the vectors held before. *)
Theorem grad_ignores_old_gradDest `{Interpolation} (st : GpMotionFit)
    (x g1 g2 : list R) :
  length g1 = expected_len st ->
  length g2 = expected_len st ->
  grad_zero g1 = Some (tt, repeat 0%R (expected_len st)) /\
  grad st x g1 = grad st x g2.
Proof.
  intros H1 H2. split.
  - rewrite grad_zero_run. now rewrite H1.
  - cbv [grad bind expand].
    destruct (paramsToPos st x (fun _ _ => vzero)) as [[[] pos]|];
      [|reflexivity].
    rewrite !grad_zero_run. now rewrite H1, H2.
Qed.

(** ** What the coefficient loop of the gradient accumulates *)

Lemma sumR_shift n F :
  sumR (S n) F = (F 0%nat + sumR n (fun i => F (S i)))%R.
Proof.
  induction n as [|n IH]; [simpl; lra|].
  change (sumR (S (S n)) F) with (sumR (S n) F + F (S n))%R.
  rewrite IH. simpl. lra.
Qed.

Section GradientCoef.

Context {interp : Interpolation}.
Variable st : GpMotionFit.
Variable ccg_pf : grid.

Lemma slot_inj fr d b fr' d' b' :
  d < dc st -> d' < dc st -> b < 2 -> b' < 2 ->
  slot st fr d + b = slot st fr' d' + b' ->
  fr = fr' /\ d = d' /\ b = b'.
Proof.
  unfold slot. intros Hd Hd' Hb Hb' E.
  assert (Eb : b = b') by lia. subst b'.
  assert (Ek : dc st * fr + d = dc st * fr' + d') by lia.
  assert (fr = fr') by nia. subst fr'. lia.
Qed.

Lemma slot_above fr d : 2 * pc st <= slot st fr d.
Proof. unfold slot. lia. Qed.

Lemma coef_shift_refl s c :
  (forall fr d, fr < fc st - 1 -> d < dc st -> c fr d = vzero) ->
  coef_shift st s s c.
Proof.
  intros Hc. split; [reflexivity|]. split; [reflexivity|].
  intros fr d Hf Hd. rewrite (Hc fr d Hf Hd). simpl. lra.
Qed.

Lemma coef_shift_trans s0 s1 s2 c1 c2 c :
  coef_shift st s0 s1 c1 -> coef_shift st s1 s2 c2 ->
  (forall fr d, fr < fc st - 1 -> d < dc st ->
     vx (c fr d) = (vx (c1 fr d) + vx (c2 fr d))%R /\
     vy (c fr d) = (vy (c1 fr d) + vy (c2 fr d))%R) ->
  coef_shift st s0 s2 c.
Proof.
  intros (L1 & F1 & C1) (L2 & F2 & C2) Hc.
  split; [congruence|]. split.
  - intros i Hi. rewrite F2, F1 by assumption. reflexivity.
  - intros fr d Hf Hd.
    destruct (C1 fr d Hf Hd) as [A1 B1]. destruct (C2 fr d Hf Hd) as [A2 B2].
    destruct (Hc fr d Hf Hd) as [Ex Ey].
    rewrite A2, B2, A1, B1, Ex, Ey. split; lra.
Qed.

(** Two writes on the slots of [(fr, d)] that subtract [a] and [b]. *)
Lemma coef_shift_step s fr d (a b v0 v1 : R) :
  fr < fc st - 1 -> d < dc st -> length s = expected_len st ->
  v0 = (nth (slot st fr d) s 0 - a)%R ->
  v1 = (nth (slot st fr d + 1) s 0 - b)%R ->
  coef_shift st s
    (set_nth (slot st fr d + 1) v1 (set_nth (slot st fr d) v0 s))
    (fun fr' d' => if (fr' =? fr) && (d' =? d) then mkV a b else vzero).
Proof.
  intros Hf Hd Hl -> ->. pose proof (slot_bound st fr d Hf Hd) as Hb.
  pose proof (slot_above fr d) as Ha.
  split; [now rewrite !length_set_nth|]. split.
  - intros i Hi. rewrite !nth_set_nth_neq by lia. reflexivity.
  - intros fr' d' Hf' Hd'.
    destruct ((fr' =? fr) && (d' =? d)) eqn:E.
    + apply andb_prop in E. destruct E as [E1 E2].
      apply Nat.eqb_eq in E1, E2. subst fr' d'. simpl. split.
      * rewrite nth_set_nth_neq by lia. rewrite nth_set_nth_eq by lia.
        reflexivity.
      * rewrite nth_set_nth_eq by (rewrite length_set_nth; lia).
        reflexivity.
    + assert (Hne : forall b0 b1, b0 < 2 -> b1 < 2 ->
                slot st fr' d' + b0 <> slot st fr d + b1).
      { intros b0 b1 H0 H1 Eq.
        destruct (slot_inj _ _ _ _ _ _ Hd' Hd H0 H1 Eq) as (-> & -> & _).
        rewrite !Nat.eqb_refl in E. discriminate. }
      pose proof (Hne 0 0 ltac:(lia) ltac:(lia)).
      pose proof (Hne 0 1 ltac:(lia) ltac:(lia)).
      pose proof (Hne 1 0 ltac:(lia) ltac:(lia)).
      pose proof (Hne 1 1 ltac:(lia) ltac:(lia)).
      simpl. split; rewrite !nth_set_nth_neq by lia; lra.
Qed.

Lemma carried_step p k d :
  k < fc st - 1 ->
  vx (carried st ccg_pf p k d)
    = (vx (carried st ccg_pf p (S k) d) + basis st p d * vx (ccg_pf p k))%R /\
  vy (carried st ccg_pf p k d)
    = (vy (carried st ccg_pf p (S k) d) + basis st p d * vy (ccg_pf p k))%R.
Proof.
  intros Hk. unfold carried. cbn [vx vy].
  replace (fc st - 1 - k) with (S (fc st - 1 - S k)) by lia.
  rewrite !sumR_shift. rewrite !Nat.add_0_r.
  split; (rewrite Rplus_comm; f_equal; apply sumR_ext; intros n _;
          now rewrite Nat.add_succ_r).
Qed.

(** Lines 154-163 for one mode and one particle. *)
Lemma grad_coef_inner p d s :
  d < dc st -> length s = expected_len st ->
  exists g s',
    for_down_acc (fc st - 1) vzero (fun fr g =>
      let g' := mkV (vx g + basis st p d * vx (ccg_pf p fr))
                    (vy g + basis st p d * vy (ccg_pf p fr)) in
      vmodify (slot st fr d) (fun o => o - vx g')%R ;;;
      vmodify (slot st fr d + 1) (fun o => o - vy g')%R ;;;
      ret g') s = Some (g, s') /\
    coef_shift st s s'
      (fun fr d' => if d' =? d then carried st ccg_pf p fr d else vzero).
Proof.
  intros Hd Hl.
  down_loop_inv (fun k acc s' =>
      vx acc = vx (carried st ccg_pf p k d) /\
      vy acc = vy (carried st ccg_pf p k d) /\
      coef_shift st s s' (fun fr d' =>
        if (d' =? d) && (k <=? fr) then carried st ccg_pf p fr d else vzero))
    as (g & s' & Hrun & _ & _ & Hs').
  - unfold carried. rewrite Nat.sub_diag. split; [reflexivity|].
    split; [reflexivity|]. apply coef_shift_refl.
    intros fr d' Hf Hd'. case_nat.
  - intros k acc s1 Hk (Hx & Hy & Hs1).
    pose proof (slot_bound st k d Hk Hd) as Hb.
    destruct (carried_step p k d Hk) as [Cx Cy].
    assert (Hl1 : length s1 = expected_len st)
      by (destruct Hs1 as [L _]; congruence).
    cbv zeta.
    rewrite bind_vmodify by lia.
    rewrite bind_vmodify by (rewrite length_set_nth; lia).
    do 2 eexists. split; [reflexivity|]. cbn [vx vy].
    split; [rewrite Cx, Hx; reflexivity|].
    split; [rewrite Cy, Hy; reflexivity|].
    eapply coef_shift_trans;
      [exact Hs1
      | apply (coef_shift_step s1 k d
                 (vx acc + basis st p d * vx (ccg_pf p k))
                 (vy acc + basis st p d * vy (ccg_pf p k))
                 _ _ Hk Hd Hl1);
        [|rewrite nth_set_nth_neq by lia]; reflexivity |].
    intros fr d' Hf Hd'. rewrite <- Hx in Cx. rewrite <- Hy in Cy.
    unfold carried in Cx, Cy. cbn [vx vy] in Cx, Cy.
    case_nat; cbn [vx vy]; try split; lra.
  - exists g, s'. split; [exact Hrun|].
    eapply coef_shift_trans;
      [apply (coef_shift_refl s (fun _ _ => vzero)); reflexivity | exact Hs' |].
    intros fr d' Hf Hd'. case_nat; cbn [vx vy]; lra.
Qed.

(** Lines 151-164: every coefficient slot loses the basis-weighted
    correlation gradient of the frames [fr .. fc-2], summed over the
    particles; the frame-0 slots are not touched. *)
Lemma grad_coef_run s :
  length s = expected_len st ->
  exists s', grad_coef st ccg_pf s = Some (tt, s') /\
             coef_shift st s s' (earlier_frames st ccg_pf).
Proof.
  intros Hl. unfold grad_coef.
  destruct (for_inv (fun m s' => coef_shift st s s' (fun fr d =>
              if d <? m then earlier_frames st ccg_pf fr d else vzero))
            (dc st)
            (fun d => for_ (pc st) (fun p =>
               for_down_acc (fc st - 1) vzero (fun fr g =>
                 let g' := mkV (vx g + basis st p d * vx (ccg_pf p fr))
                               (vy g + basis st p d * vy (ccg_pf p fr)) in
                 vmodify (slot st fr d) (fun o => o - vx g')%R ;;;
                 vmodify (slot st fr d + 1) (fun o => o - vy g')%R ;;;
                 ret g') ;;;
               ret tt)) s) as (s' & Hrun & Hs').
  - apply coef_shift_refl. reflexivity.
  - intros d sd Hd Hsd.
    assert (Hld : length sd = expected_len st)
      by (destruct Hsd as [L _]; congruence).
    destruct (for_inv (fun q s' => coef_shift st sd s' (fun fr d' =>
                if d' =? d
                then mkV (sumR q (fun p => vx (carried st ccg_pf p fr d)))
                         (sumR q (fun p => vy (carried st ccg_pf p fr d)))
                else vzero))
              (pc st)
              (fun p =>
               for_down_acc (fc st - 1) vzero (fun fr g =>
                 let g' := mkV (vx g + basis st p d * vx (ccg_pf p fr))
                               (vy g + basis st p d * vy (ccg_pf p fr)) in
                 vmodify (slot st fr d) (fun o => o - vx g')%R ;;;
                 vmodify (slot st fr d + 1) (fun o => o - vy g')%R ;;;
                 ret g') ;;;
               ret tt) sd) as (sq & Hrunq & Hsq).
    + apply coef_shift_refl. intros fr d' _ _. case_nat.
    + intros p sp Hp Hsp.
      assert (Hlp : length sp = expected_len st)
        by (destruct Hsp as [L _]; congruence).
      destruct (grad_coef_inner p d sp Hd Hlp) as (g & s2 & Hin & Hs2).
      exists s2. split.
      * rewrite (bind_some _ _ _ _ _ Hin). reflexivity.
      * eapply coef_shift_trans; [exact Hsp | exact Hs2 |].
        intros fr d' Hf Hd'. case_nat; cbn [vx vy sumR]; lra.
    + exists sq. split; [exact Hrunq|].
      eapply coef_shift_trans; [exact Hsd | exact Hsq |].
      intros fr d' Hf Hd'. unfold earlier_frames.
      case_nat; cbn [vx vy]; lra.
  - exists s'. split; [exact Hrun|].
    eapply coef_shift_trans;
      [apply (coef_shift_refl s (fun _ _ => vzero)); reflexivity | exact Hs' |].
    intros fr d Hf Hd. apply Nat.ltb_lt in Hd. cbv beta. rewrite Hd.
    cbn [vx vy vzero]. lra.
Qed.

End GradientCoef.

(** ** The accesses of the gradient when no mode is dropped *)

Section GradientRange.

Context {interp : Interpolation}.
Variable st : GpMotionFit.

(** A loop whose iterations keep the length of the vector. *)
Lemma for_length n (body : nat -> M (list R) unit) (L : nat) s0 :
  length s0 = L ->
  (forall k s, k < n -> length s = L ->
     exists s', body k s = Some (tt, s') /\ length s' = L) ->
  exists s', for_ n body s0 = Some (tt, s') /\ length s' = L.
Proof.
  intros H0 Hstep. apply (for_inv (fun _ s => length s = L)); auto.
Qed.

Lemma grad_frame0_defined (ccg_pf : grid) s :
  length s = expected_len st ->
  exists s', grad_frame0 st ccg_pf s = Some (tt, s') /\
             length s' = expected_len st.
Proof.
  intros Hl. unfold grad_frame0.
  apply for_length; [exact Hl|]. intros p s1 Hp Hl1.
  apply for_length; [exact Hl1|]. intros fr s2 Hf Hl2.
  pose proof (frame0_bound st p Hp) as Hb.
  rewrite bind_vmodify by lia.
  rewrite vmodify_ok by (rewrite length_set_nth; lia).
  eexists. split; [reflexivity|]. now rewrite !length_set_nth.
Qed.

Lemma grad_reg_defined (x s : list R) :
  pc st <= dc st ->
  length x = expected_len st -> length s = expected_len st ->
  exists s', grad_reg st x s = Some (tt, s') /\ length s' = expected_len st.
Proof.
  intros Hdc Hx Hl. unfold grad_reg.
  apply for_length; [exact Hl|]. intros fr s1 Hf Hl1.
  apply for_length; [exact Hl1|]. intros d s2 Hd Hl2.
  pose proof (slot_bound st fr d Hf ltac:(lia)) as Hb.
  rewrite bind_read by lia. rewrite bind_vmodify by lia.
  rewrite bind_read by lia.
  rewrite vmodify_ok by (rewrite length_set_nth; lia).
  eexists. split; [reflexivity|]. now rewrite !length_set_nth.
Qed.

Lemma grad_acc_defined (x s : list R) :
  length x = expected_len st -> length s = expected_len st ->
  exists s', grad_acc st x s = Some (tt, s') /\ length s' = expected_len st.
Proof.
  intros Hx Hl. unfold grad_acc.
  destruct (Rlt_dec 0 (sig_acc_px st)); [|exists s; split; [reflexivity|exact Hl]].
  cbv zeta.
  apply for_length; [exact Hl|]. intros fr s1 Hf Hl1.
  apply for_length; [exact Hl1|]. intros d s2 Hd Hl2.
  pose proof (slot_bound st fr d ltac:(lia) Hd) as Hb0.
  pose proof (slot_bound st (fr + 1) d ltac:(lia) Hd) as Hb1.
  rewrite !bind_read by lia.
  rewrite bind_vmodify by lia.
  rewrite bind_vmodify by (rewrite !length_set_nth; lia).
  rewrite bind_vmodify by (rewrite !length_set_nth; lia).
  rewrite vmodify_ok by (rewrite !length_set_nth; lia).
  eexists. split; [reflexivity|]. now rewrite !length_set_nth.
Qed.

(** With [dc = pc] lines 166-171 add twice the coefficient to the two slots
    of every retained coefficient and to nothing else. *)
Lemma grad_reg_run (x s : list R) :
  dc st = pc st ->
  length x = expected_len st -> length s = expected_len st ->
  exists s', grad_reg st x s = Some (tt, s') /\
    coef_shift st s s' (fun fr d =>
      mkV (- (2 * vx (coef st x fr d))) (- (2 * vy (coef st x fr d)))).
Proof.
  intros Hdc Hx Hl. unfold grad_reg.
  destruct (for_inv (fun m s' => coef_shift st s s' (fun fr d =>
              if fr <? m
              then mkV (- (2 * vx (coef st x fr d)))
                       (- (2 * vy (coef st x fr d)))
              else vzero))
            (fc st - 1)
            (fun fr => for_ (pc st) (fun d =>
               c0 <- read x (slot st fr d) ;;
               vmodify (slot st fr d) (fun o => o + 2 * c0)%R ;;;
               c1 <- read x (slot st fr d + 1) ;;
               vmodify (slot st fr d + 1) (fun o => o + 2 * c1)%R)) s)
    as (s' & Hrun & Hs').
  - apply coef_shift_refl. reflexivity.
  - intros fr sf Hf Hsf.
    assert (Hlf : length sf = expected_len st)
      by (destruct Hsf as [L _]; congruence).
    destruct (for_inv (fun q s' => coef_shift st sf s' (fun fr' d =>
                if (fr' =? fr) && (d <? q)
                then mkV (- (2 * vx (coef st x fr' d)))
                         (- (2 * vy (coef st x fr' d)))
                else vzero))
              (pc st)
              (fun d =>
               c0 <- read x (slot st fr d) ;;
               vmodify (slot st fr d) (fun o => o + 2 * c0)%R ;;;
               c1 <- read x (slot st fr d + 1) ;;
               vmodify (slot st fr d + 1) (fun o => o + 2 * c1)%R) sf)
      as (sq & Hrunq & Hsq).
    + apply coef_shift_refl. intros fr' d _ _. case_nat.
    + intros d sd Hd Hsd.
      assert (Hld : length sd = expected_len st)
        by (destruct Hsd as [L _]; congruence).
      assert (Hd' : d < dc st) by lia.
      pose proof (slot_bound st fr d Hf Hd') as Hb.
      rewrite bind_read by lia. rewrite bind_vmodify by lia.
      rewrite bind_read by lia.
      rewrite vmodify_ok by (rewrite length_set_nth; lia).
      eexists. split; [reflexivity|].
      eapply coef_shift_trans;
        [exact Hsd
        | apply (coef_shift_step st sd fr d
                   (- (2 * nth (slot st fr d) x 0))%R
                   (- (2 * nth (slot st fr d + 1) x 0))%R
                   _ _ Hf Hd' Hld);
          [|rewrite nth_set_nth_neq by lia]; lra |].
      intros fr' d0 Hf' Hd0. unfold coef. case_nat; cbn [vx vy]; lra.
    + exists sq. split; [exact Hrunq|].
      eapply coef_shift_trans; [exact Hsf | exact Hsq |].
      intros fr' d Hf' Hd. case_nat; cbn [vx vy]; lra.
  - exists s'. split; [exact Hrun|].
    eapply coef_shift_trans;
      [apply (coef_shift_refl st s (fun _ _ => vzero)); reflexivity
      | exact Hs' |].
    intros fr d Hf Hd. apply Nat.ltb_lt in Hf. cbv beta. rewrite Hf.
    cbn [vx vy vzero]. lra.
Qed.

(** With [dc >= pc] every access of [grad] is in range. *)
Lemma grad_defined (x g : list R) :
  pc st <= dc st ->
  length x = expected_len st -> length g = expected_len st ->
  exists g', grad st x g = Some (tt, g') /\ length g' = expected_len st.
Proof.
  intros Hdc Hx Hg. unfold grad.
  destruct (expand_run st x Hx g) as (pos & Hex & _).
  rewrite (bind_some _ _ _ _ _ Hex). cbv zeta.
  rewrite (bind_some _ _ _ _ _ (grad_zero_run g)).
  assert (H0 : length (repeat 0%R (length g)) = expected_len st)
    by now rewrite repeat_length.
  destruct (grad_frame0_defined (grad_ccg st pos) _ H0) as (s1 & R1 & L1).
  rewrite (bind_some _ _ _ _ _ R1).
  destruct (grad_coef_run st (grad_ccg st pos) s1 L1) as (s2 & R2 & C2).
  assert (L2 : length s2 = expected_len st)
    by (destruct C2 as [L _]; congruence).
  rewrite (bind_some _ _ _ _ _ R2).
  destruct (grad_reg_defined x s2 Hdc Hx L2) as (s3 & R3 & L3).
  rewrite (bind_some _ _ _ _ _ R3).
  apply grad_acc_defined; assumption.
Qed.

End GradientRange.

(** ** Derivatives *)

Lemma derivable_pt_lim_pointwise (F G : R -> R) (x l : R) :
  (forall t, F t = G t) ->
  derivable_pt_lim G x l -> derivable_pt_lim F x l.
Proof.
  intros Heq HG eps Heps. destruct (HG eps Heps) as [delta Hdelta].
  exists delta. intros h Hh Hlt. rewrite !Heq. now apply Hdelta.
Qed.

Lemma deriv_quadratic (a b c x : R) :
  derivable_pt_lim (fun t => a * t * t + b * t + c)%R x (2 * a * x + b)%R.
Proof.
  replace (2 * a * x + b)%R
    with ((a * 1 * x + a * x * 1) + b * 1 + 0)%R by ring.
  apply (derivable_pt_lim_plus (fun t => a * t * t + b * t)%R (fun _ => c)).
  - apply (derivable_pt_lim_plus (fun t => a * t * t)%R (fun t => b * t)%R).
    + apply (derivable_pt_lim_mult (fun t => a * t)%R (fun t => t)).
      * apply (derivable_pt_lim_scal id a x 1). apply derivable_pt_lim_id.
      * apply derivable_pt_lim_id.
    + apply (derivable_pt_lim_scal id b x 1). apply derivable_pt_lim_id.
  - apply derivable_pt_lim_const.
Qed.

Lemma ramp_exact : interp_exact ramp.
Proof.
  intros img x y z n w. simpl. split.
  - apply (derivable_pt_lim_pointwise _
             (fun t => 0 * t * t + vx img * t + vy img * y)%R).
    + intros t. ring.
    + pose proof (deriv_quadratic 0 (vx img) (vy img * y) x) as Hq.
      replace (2 * 0 * x + vx img)%R with (vx img) in Hq by ring. exact Hq.
  - apply (derivable_pt_lim_pointwise _
             (fun t => 0 * t * t + vy img * t + vx img * x)%R).
    + intros t. ring.
    + pose proof (deriv_quadratic 0 (vy img) (vx img * x) y) as Hq.
      replace (2 * 0 * y + vy img)%R with (vy img) in Hq by ring. exact Hq.
Qed.

(** Evaluate a method on a concrete fit, leaving the real arithmetic. *)
Ltac run_fit :=
  cbv -[Rplus Rminus Rmult Rdiv Ropp Rinv Rlt_dec IZR];
  repeat match goal with
         | |- context [Rlt_dec ?a ?b] => destruct (Rlt_dec a b); try lra
         end.

(** The energy of [fit_1p2f] in closed form. *)
Lemma f_fit_1p2f (a b c d : R) :
  f_val fit_1p2f [a; b; c; d]
  = (- (a + 8) - 3 * (a + c + 8) + c * c + d * d)%R.
Proof.
  unfold f_val. run_fit; lra.
Qed.

(** The energy with the acceleration term: positions (1,2), (4,6), (9,12),
    correlation term -96, regularisation 86, acceleration 8/4. *)
Example f_fit_1p3f :
  f fit_1p3f [1; 2; 3; 4; 5; 6]%R = Some (-8)%R.
Proof.
  run_fit. simpl. f_equal. lra.
Qed.

(** The gradient of the same fit at the same point, as [grad] computes
    it. *)
Example grad_fit_1p3f :
  grad fit_1p3f [1; 2; 3; 4; 5; 6]%R [0; 0; 0; 0; 0; 0]%R
  = Some (tt, [7; 0; 1; 7; 8; 13]%R).
Proof.
  run_fit. repeat f_equal; lra.
Qed.

(** The partial derivatives of the energy of [fit_1p2f] at the origin. *)
Lemma true_gradient_fit_1p2f :
  is_gradient fit_1p2f [0; 0; 0; 0]%R [-4; 0; -3; 0]%R.
Proof.
  intros i Hi. simpl in Hi.
  destruct i as [|[|[|[|i]]]]; try lia; simpl.
  - apply (derivable_pt_lim_pointwise _ (fun t => 0 * t * t + -4 * t + -32)%R).
    + intros t. rewrite f_fit_1p2f. ring.
    + pose proof (deriv_quadratic 0 (-4) (-32) 0) as Hq.
      replace (2 * 0 * 0 + -4)%R with (-4)%R in Hq by ring. exact Hq.
  - apply (derivable_pt_lim_pointwise _ (fun t => 0 * t * t + 0 * t + -32)%R).
    + intros t. rewrite f_fit_1p2f. ring.
    + pose proof (deriv_quadratic 0 0 (-32) 0) as Hq.
      replace (2 * 0 * 0 + 0)%R with 0%R in Hq by ring. exact Hq.
  - apply (derivable_pt_lim_pointwise _ (fun t => 1 * t * t + -3 * t + -32)%R).
    + intros t. rewrite f_fit_1p2f. ring.
    + pose proof (deriv_quadratic 1 (-3) (-32) 0) as Hq.
      replace (2 * 1 * 0 + -3)%R with (-3)%R in Hq by ring. exact Hq.
  - apply (derivable_pt_lim_pointwise _ (fun t => 1 * t * t + 0 * t + -32)%R).
    + intros t. rewrite f_fit_1p2f. ring.
    + pose proof (deriv_quadratic 1 0 (-32) 0) as Hq.
      replace (2 * 1 * 0 + 0)%R with 0%R in Hq by ring. exact Hq.
Qed.

(** ** Where the gradient departs from its specification *)

(** C1.  On one particle, two frames and one mode ([dc = pc]), with ramps
    of slope 1 and 3 as correlation images (whose gradient mode is exact),
    the energy has the gradient [(-4, 0, -3, 0)] at [x = 0], and [grad]
    returns [(4, 0, -1, 0)]: the frame-0 slots carry the opposite sign, and
    the coefficient slot sums frame 0 instead of frame 1.  The vector that
    [grad] returns is not the gradient of [f]. *)
Theorem grad_is_not_gradient_of_f :
  interp_exact ramp /\
  length [0; 0; 0; 0]%R = expected_len fit_1p2f /\
  grad fit_1p2f [0; 0; 0; 0]%R [0; 0; 0; 0]%R
    = Some (tt, [4; 0; -1; 0]%R) /\
  is_gradient fit_1p2f [0; 0; 0; 0]%R [-4; 0; -3; 0]%R /\
  ~ is_gradient fit_1p2f [0; 0; 0; 0]%R [4; 0; -1; 0]%R.
Proof.
  split; [exact ramp_exact|]. split; [reflexivity|]. split; [|split].
  - run_fit; repeat f_equal; lra.
  - exact true_gradient_fit_1p2f.
  - intros Hg.
    pose proof (Hg 0 ltac:(simpl; lia)) as H0.
    pose proof (true_gradient_fit_1p2f 0 ltac:(simpl; lia)) as H0'.
    pose proof (uniqueness_limite _ _ _ _ H0 H0') as E.
    simpl in E. lra.
Qed.

(** C3.  With correlation gradients [(1,0)] in frame 0 and [(3,0)] in
    frame 1, lines 151-164 subtract 1 from the slot of the coefficient of
    transition 0: the weighted gradient of frame 0.  The later frames
    [1 .. fc-1] of the specification are frame 1, whose weighted gradient
    is 3.  ([grad_coef_run] gives the frames [fr .. fc-2] for every input
    of the expected length.) *)
Theorem grad_coef_sums_earlier_frames :
  let ccg_pf : grid := fun _ fr => if fr =? 0 then mkV 1 0 else mkV 3 0 in
  grad_coef fit_1p2f ccg_pf [0; 0; 0; 0]%R = Some (tt, [0; 0; -1; 0]%R) /\
  slot fit_1p2f 0 0 = 2 /\
  vx (later_frames fit_1p2f ccg_pf 0 0) = 3%R /\
  nth (slot fit_1p2f 0 0) [0; 0; -1; 0]%R 0%R
    <> (0 - vx (later_frames fit_1p2f ccg_pf 0 0))%R.
Proof.
  intros ccg_pf. split; [|split; [|split]].
  - run_fit; repeat f_equal; lra.
  - reflexivity.
  - run_fit; lra.
  - run_fit; lra.
Qed.

(** C2.  With two particles and one retained mode ([dc < pc]), the
    regularisation loop of [grad] (lines 166-171) runs its mode index up to
    [pc]: after the slots 4 and 5 of the only retained coefficient it
    accesses index 6 of vectors of length 6, and has no defined result. *)
Theorem grad_reg_leaves_retained_slots :
  dc fit_2p2f < pc fit_2p2f /\
  expected_len fit_2p2f = 6 /\
  slot fit_2p2f 0 0 = 4 /\
  slot fit_2p2f 0 1 = 6 /\
  grad_reg fit_2p2f [0; 0; 0; 0; 1; 1]%R [0; 0; 0; 0; 0; 0]%R = None.
Proof.
  split; [simpl; lia|]. do 3 (split; [reflexivity|]).
  apply grad_reg_oob; try reflexivity; simpl; lia.
Qed.

(** C4.  On the same fit, [grad] called with [x] and [gradDest] of the
    expected length 6 has no defined result: the loop of lines 166-171
    accesses index 6.  ([grad_oob] gives this for every fit with [dc < pc]
    and a transition, [grad_defined] the opposite for [dc >= pc].) *)
Theorem grad_out_of_bounds :
  dc fit_2p2f < pc fit_2p2f /\
  length [0; 0; 0; 0; 1; 1]%R = expected_len fit_2p2f /\
  length [0; 0; 0; 0; 0; 0]%R = expected_len fit_2p2f /\
  grad fit_2p2f [0; 0; 0; 0; 1; 1]%R [0; 0; 0; 0; 0; 0]%R = None.
Proof.
  split; [simpl; lia|]. split; [reflexivity|]. split; [reflexivity|].
  apply grad_oob; try reflexivity; simpl; lia.
Qed.

(** ** The constructor *)

Lemma loop_invariant {A} (P : nat -> A -> Prop) n (body : nat -> A -> A) a :
  P 0 a ->
  (forall k a', k < n -> P k a' -> P (S k) (body k a')) ->
  P n (loop n body a).
Proof.
  intros H0 Hstep. induction n as [|n IH]; [exact H0|].
  simpl. apply Hstep; [lia|]. apply IH. intros k a' Hk. apply Hstep. lia.
Qed.

Lemma loop_S {A} n (body : nat -> A -> A) a :
  loop (S n) body a = body n (loop n body a).
Proof. reflexivity. Qed.

Lemma norm2_vsub_sym (u v : d2Vector) : norm2 (vsub u v) = norm2 (vsub v u).
Proof. unfold norm2, vsub. simpl. ring. Qed.

Lemma kernel_nonneg (e : bool) (sv sd2 dd : R) :
  (0 <= kernel e (sv * sv) sd2 dd)%R.
Proof.
  unfold kernel. apply Rmult_le_pos; [nra|].
  destruct e; left; apply exp_pos.
Qed.

Section Covariance.

Variables (e : bool) (n : nat) (sv sd : R) (ps : list d2Vector).

Lemma pair_kernel_sym i j : pair_kernel e sv sd ps i j = pair_kernel e sv sd ps j i.
Proof. unfold pair_kernel. now rewrite norm2_vsub_sym. Qed.

(** The loops of lines 31-38 write every pair [i <= j < pc] once, in both
    orientations. *)
Lemma covariance_upper a b :
  a <= b ->
  let v := if (a <? n) && (b <? n) then pair_kernel e sv sd ps a b else 0%R in
  covariance e n sv sd ps a b = v /\ covariance e n sv sd ps b a = v.
Proof.
  intros Hab v. subst v. unfold covariance. revert a b Hab.
  apply (loop_invariant (fun m (A : Matrix2D) => forall a b, a <= b ->
    A a b = (if (a <? m) && (b <? n) then pair_kernel e sv sd ps a b else 0%R) /\
    A b a = (if (a <? m) && (b <? n) then pair_kernel e sv sd ps a b else 0%R))).
  - intros a b _. split; reflexivity.
  - intros m A Hm HA.
    pose (body := fun (k : nat) (A : Matrix2D) =>
      let j := m + k in
      let dd := norm2 (vsub (nth m ps vzero) (nth j ps vzero)) in
      let kv := kernel e (sv * sv) (sd * sd) dd in
      gset (gset A m j kv) j m kv).
    assert (Hgen : forall c, c <= n - m -> forall a b, a <= b ->
      loop c body A a b
      = (if ((a <? m) && (b <? n)) || ((a =? m) && (b <? m + c))
         then pair_kernel e sv sd ps a b else 0%R) /\
      loop c body A b a
      = (if ((a <? m) && (b <? n)) || ((a =? m) && (b <? m + c))
         then pair_kernel e sv sd ps a b else 0%R)).
    { induction c as [|c IH]; intros Hc a b Hab.
      - simpl. destruct (HA a b Hab) as [-> ->]. split; case_nat.
      - rewrite loop_S. unfold body at 1 3. cbv beta zeta. unfold gset.
        destruct (IH ltac:(lia) a b Hab) as [-> ->].
        fold (pair_kernel e sv sd ps m (m + c)).
        split; case_nat; apply pair_kernel_sym. }
    intros a b Hab. destruct (Hgen (n - m) (le_n _) a b Hab) as [E1 E2].
    split; (etransitivity; [first [exact E1 | exact E2]|]); case_nat.
Qed.

Lemma covariance_entry i j :
  i < n -> j < n -> covariance e n sv sd ps i j = pair_kernel e sv sd ps i j.
Proof.
  intros Hi Hj. apply Nat.ltb_lt in Hi, Hj.
  destruct (Nat.le_ge_cases i j) as [Hle|Hge].
  - destruct (covariance_upper i j Hle) as [-> _]. now rewrite Hi, Hj.
  - destruct (covariance_upper j i Hge) as [_ ->]. rewrite Hi, Hj.
    apply pair_kernel_sym.
Qed.

End Covariance.

(** The exponent of the exponential kernel for any non-zero
    [sig_div_px]: the distance over the absolute value of the length. *)
Lemma kernel_exp_abs (sv2 sd dd : R) :
  sd <> 0%R ->
  kernel true sv2 (sd * sd) dd = (sv2 * exp (- (sqrt dd / Rabs sd)))%R.
Proof.
  intros Hsd. unfold kernel.
  rewrite sqrt_div_alt by nra.
  change (sd * sd)%R with (Rsqr sd). now rewrite sqrt_Rsqr_abs.
Qed.



(** Lines 47-57 store [sqrt(S(d)) * Vt(p,d)] at [(p,d)]. *)
Lemma make_basis_entry (pc dc : nat) (S : Matrix1D) (Vt : Matrix2D) p d :
  p < pc -> d < dc ->
  make_basis pc dc S Vt p d = (sqrt (S d) * Vt p d)%R.
Proof.
  intros Hp Hd. unfold make_basis.
  assert (H : forall a b,
    loop dc (fun d B =>
      let l := sqrt (S d) in
      loop pc (fun p B => gset B p d (l * Vt p d)%R) B) (fun _ _ => 0%R) a b
    = if (b <? dc) && (a <? pc) then (sqrt (S b) * Vt a b)%R else 0%R).
  { apply (loop_invariant (fun m (B : Matrix2D) => forall a b,
      B a b = if (b <? m) && (a <? pc)
              then (sqrt (S b) * Vt a b)%R else 0%R)).
    - intros a b. reflexivity.
    - intros m B Hm HB. cbv zeta. intros a b.
      rewrite (loop_invariant (fun k (B' : Matrix2D) => forall a b,
        B' a b = if ((b <? m) && (a <? pc)) || ((b =? m) && (a <? k))
                 then (sqrt (S b) * Vt a b)%R else 0%R) pc _ B).
      + case_nat.
      + intros a' b'. rewrite HB. case_nat.
      + intros k B' Hk HB' a' b'. unfold gset. rewrite HB'. case_nat. }
  rewrite H. apply Nat.ltb_lt in Hp, Hd. now rewrite Hp, Hd.
Qed.

(** Lines 59-64 store [S(d)] at index [d]. *)
Lemma make_eigenVals_entry (dc : nat) (S : Matrix1D) d :
  d < dc -> nth d (make_eigenVals dc S) 0%R = S d.
Proof.
  intros Hd. unfold make_eigenVals.
  assert (H : length (loop dc (fun d ev => set_nth d (S d) ev) (repeat 0%R dc))
              = dc /\
              forall i, i < dc ->
                nth i (loop dc (fun d ev => set_nth d (S d) ev)
                         (repeat 0%R dc)) 0%R = S i).
  { apply (loop_invariant (fun m (ev : list R) =>
      length ev = dc /\ forall i, i < m -> nth i ev 0%R = S i)).
    - split; [apply repeat_length | intros i Hi; lia].
    - intros m ev Hm [Hl Hn]. split; [now rewrite length_set_nth|].
      intros i Hi. destruct (Nat.eq_dec i m) as [->|Hne].
      + apply nth_set_nth_eq. lia.
      + rewrite nth_set_nth_neq by exact Hne. apply Hn. lia. }
  now apply H.
Qed.

(** C8.  When no mode is dropped ([maxDims >= pc]) and the decomposition
    returns non-negative singular values [S] and vectors [Vt] with
    [A = Vt * diag(S) * Vt^T], the constructed fit has [dc = pc] and
    [basis * basis^T = A], for either kernel. *)
Theorem basis_reconstructs_covariance `{Interpolation} `{SvdHelper}
    (pc fc : nat) (correlation : nat -> nat -> Image)
    (sig_vel_px sig_div_px sig_acc_px : R) (maxDims : nat)
    (positions perFrameOffsets : list d2Vector)
    (threads : nat) (expKer : bool) :
  let A := covariance expKer pc sig_vel_px sig_div_px positions in
  let S := snd (fst (decompose pc A)) in
  let Vt := snd (decompose pc A) in
  let st := GpMotionFit_new pc fc correlation sig_vel_px sig_div_px
              sig_acc_px maxDims positions perFrameOffsets threads expKer in
  pc <= maxDims ->
  (forall d, d < pc -> (0 <= S d)%R) ->
  (forall i j, i < pc -> j < pc ->
     A i j = sumR pc (fun d => Vt i d * S d * Vt j d)%R) ->
  dc st = pc /\
  forall i j, i < pc -> j < pc ->
    sumR (dc st) (fun d => basis st i d * basis st j d)%R = A i j.
Proof.
  intros A S Vt st Hmax HS HA.
  assert (Hdc : dc st = pc).
  { simpl. destruct (pc <? maxDims) eqn:E; [reflexivity|].
    apply Nat.ltb_ge in E. lia. }
  split; [exact Hdc|]. intros i j Hi Hj.
  rewrite HA by assumption. rewrite Hdc.
  apply sumR_ext. intros d Hd.
  change (basis st) with (make_basis pc (dc st) S Vt).
  rewrite !make_basis_entry by (try assumption; rewrite Hdc; assumption).
  pose proof (sqrt_sqrt (S d) (HS d Hd)) as Hsq.
  replace (sqrt (S d) * Vt i d * (sqrt (S d) * Vt j d))%R
    with (Vt i d * (sqrt (S d) * sqrt (S d)) * Vt j d)%R by ring.
  now rewrite Hsq.
Qed.

Lemma basis_reconstructs_covariance_witness :
  let st := @GpMotionFit_new ramp diag_svd 1 2 (fun _ _ => vzero) 1 1 0 1
              [vzero] [vzero; vzero] 1 true in
  dc st = 1 /\
  forall i j, i < 1 -> j < 1 ->
    sumR (dc st) (fun d => basis st i d * basis st j d)%R
    = covariance true 1 1 1 [vzero] i j.
Proof.
  apply (@basis_reconstructs_covariance ramp diag_svd
           1 2 (fun _ _ => vzero) 1 1 0 1 [vzero] [vzero; vzero] 1 true).
  - lia.
  - intros d Hd. simpl.
    rewrite covariance_entry by assumption. apply kernel_nonneg.
  - intros i j Hi Hj. assert (i = 0) as -> by lia. assert (j = 0) as -> by lia.
    simpl. lra.
Defined.

(** The fit that the constructor builds from orthonormal retained vectors
    and positive retained singular values meets the conditions of the
    round trip. *)
Lemma new_basis_orthogonal `{Interpolation} `{SvdHelper}
    (pc fc : nat) (correlation : nat -> nat -> Image)
    (sig_vel_px sig_div_px sig_acc_px : R) (maxDims : nat)
    (positions perFrameOffsets : list d2Vector)
    (threads : nat) (expKer : bool) :
  let A := covariance expKer pc sig_vel_px sig_div_px positions in
  let S := snd (fst (decompose pc A)) in
  let Vt := snd (decompose pc A) in
  let st := GpMotionFit_new pc fc correlation sig_vel_px sig_div_px
              sig_acc_px maxDims positions perFrameOffsets threads expKer in
  (forall d, d < dc st -> (0 < S d)%R) ->
  (forall d d', d < dc st -> d' < dc st ->
     sumR pc (fun p => Vt p d * Vt p d')%R = if d =? d' then 1%R else 0%R) ->
  (forall d, d < dc st -> (0 < eigenVal st d)%R) /\
  (forall d d', d < dc st -> d' < dc st ->
     sumR pc (fun p => basis st p d * basis st p d')%R
     = if d =? d' then eigenVal st d else 0%R).
Proof.
  intros A S Vt st HS HV.
  assert (Hev : forall d, d < dc st -> eigenVal st d = S d).
  { intros d Hd. apply make_eigenVals_entry. exact Hd. }
  split.
  - intros d Hd. rewrite Hev by exact Hd. now apply HS.
  - intros d d' Hd Hd'.
    rewrite (sumR_ext _ _ (fun p =>
               sqrt (S d) * sqrt (S d') * (Vt p d * Vt p d'))%R).
    2:{ intros p Hp. change (basis st) with (make_basis pc (dc st) S Vt).
        rewrite !make_basis_entry by assumption. ring. }
    rewrite sumR_scal_l, HV by assumption.
    destruct (d =? d') eqn:E.
    + apply Nat.eqb_eq in E. subst d'. rewrite Hev by exact Hd.
      rewrite sqrt_sqrt by (left; now apply HS). ring.
    + ring.
Qed.

Lemma grad_ignores_old_gradDest_witness :
  grad_zero [7; 8; 9; 10]%R = Some (tt, repeat 0%R (expected_len fit_1p2f)) /\
  grad fit_1p2f [1; 2; 3; 4]%R [7; 8; 9; 10]%R
  = grad fit_1p2f [1; 2; 3; 4]%R [0; 0; 0; 0]%R.
Proof.
  apply (grad_ignores_old_gradDest fit_1p2f); reflexivity.
Defined.

(** * Further properties of the codec, the energy and the gradient *)

(** ** Loops and vectors, continued *)

Lemma bind_ext {St A B} (m m' : M St A) (k k' : A -> M St B) s :
  m s = m' s -> (forall a s', k a s' = k' a s') ->
  bind m k s = bind m' k' s.
Proof.
  intros Hm Hk. unfold bind. rewrite Hm.
  destruct (m' s) as [[a s']|]; [apply Hk | reflexivity].
Qed.

Lemma bind_none_k {St A B} (m : M St A) (k : A -> M St B) s :
  (forall a s', k a s' = None) -> bind m k s = None.
Proof.
  intros H. unfold bind. destruct (m s) as [[a s']|]; [apply H | reflexivity].
Qed.

Lemma for_acc_ext {St A} n (body body' : nat -> A -> M St A) a0 s0 :
  (forall k a s, k < n -> body k a s = body' k a s) ->
  for_acc n a0 body s0 = for_acc n a0 body' s0.
Proof.
  intros H. induction n as [|n IH]; [reflexivity|].
  simpl. apply bind_ext.
  - apply IH. intros k a s Hk. apply H. lia.
  - intros a s. apply H. lia.
Qed.

Lemma read_ext {St} (x y : list R) i (s : St) :
  nth_error x i = nth_error y i -> read x i s = read y i s.
Proof. intros E. unfold read. now rewrite E. Qed.

Lemma d2Vector_eq (u v : d2Vector) : vx u = vx v -> vy u = vy v -> u = v.
Proof. destruct u, v. simpl. intros -> ->. reflexivity. Qed.

Lemma sumR_nonneg n F :
  (forall k, k < n -> (0 <= F k)%R) -> (0 <= sumR n F)%R.
Proof.
  induction n as [|n IH]; intros H; simpl; [lra|].
  pose proof (IH (fun k Hk => H k (Nat.lt_lt_succ_r _ _ Hk))).
  pose proof (H n (Nat.lt_succ_diag_r n)). lra.
Qed.

(** ** The codec: bounds of [paramsToPos] *)

Section ExpandBounds.

Context {interp : Interpolation}.
Variable st : GpMotionFit.

(** [paramsToPos] reads [x] below the expected length only. *)
Lemma paramsToPos_prefix (x y : list R) (pos0 : grid) :
  (forall i, i < expected_len st -> nth_error x i = nth_error y i) ->
  paramsToPos st x pos0 = paramsToPos st y pos0.
Proof.
  intros Hxy. unfold paramsToPos, for_.
  apply for_acc_ext. intros p [] pos Hp.
  pose proof (frame0_bound st p Hp) as Hb.
  apply bind_ext; [apply read_ext, Hxy; lia|]. intros x0 s0.
  apply bind_ext; [apply read_ext, Hxy; lia|]. intros x1 s1.
  apply bind_ext; [|reflexivity].
  apply for_acc_ext. intros fr pp s2 Hf.
  apply bind_ext; [reflexivity|]. intros [] s3.
  destruct (fr <? fc st - 1) eqn:E; [|reflexivity].
  apply Nat.ltb_lt in E.
  apply bind_ext; [|reflexivity].
  apply for_acc_ext. intros d vel s4 Hd.
  pose proof (slot_bound st fr d E Hd) as Hs.
  apply bind_ext; [apply read_ext, Hxy; lia|]. intros cx s5.
  apply bind_ext; [apply read_ext, Hxy; lia|]. reflexivity.
Qed.

End ExpandBounds.

(** X1.  With at least one particle, a parameter vector that is shorter
    than the expected length makes [paramsToPos] read out of range, and with
    it [f] and [grad], whatever the grid and [gradDest] are. *)
Theorem paramsToPos_short `{Interpolation} (st : GpMotionFit)
    (x g : list R) (pos0 : grid) :
  0 < pc st -> length x < expected_len st ->
  paramsToPos st x pos0 = None /\
  f st x = None /\
  grad st x g = None.
Proof.
  intros Hpc Hshort.
  assert (Hp : forall pos1, paramsToPos st x pos1 = None).
  { intros pos1. unfold paramsToPos.
    destruct (Nat.lt_ge_cases (length x) (2 * pc st)) as [Hlt|Hge].
    - apply (for_fail _ _ _ (length x / 2)).
      + apply Nat.Div0.div_lt_upper_bound. lia.
      + intros s.
        pose proof (Nat.div_mod_eq (length x) 2) as E.
        pose proof (Nat.mod_upper_bound (length x) 2 ltac:(lia)) as B.
        apply bind_none_k. intros x0 s0.
        apply bind_none. apply read_fail. lia.
    - apply (for_fail _ _ _ 0 Hpc). intros s.
      apply bind_none_k. intros x0 s0.
      apply bind_none_k. intros x1 s1.
      apply bind_none.
      unfold expected_len in Hshort.
      remember (fc st - 1) as n eqn:En.
      assert (Hdc : 0 < dc st) by nia.
      set (k := (length x - 2 * pc st) / 2).
      pose proof (Nat.div_mod_eq (length x - 2 * pc st) 2) as E.
      pose proof (Nat.mod_upper_bound (length x - 2 * pc st) 2 ltac:(lia)) as B.
      fold k in E.
      assert (Hk : k < dc st * n) by nia.
      pose proof (Nat.div_mod_eq k (dc st)) as E'.
      pose proof (Nat.mod_upper_bound k (dc st) ltac:(lia)) as B'.
      assert (Hfr : k / dc st < n)
        by (apply Nat.Div0.div_lt_upper_bound; lia).
      apply (for_acc_fail _ _ _ _ (k / dc st)); [lia|]. intros pp s2.
      rewrite bind_modify.
      assert (Hlt : (k / dc st <? n) = true)
        by (apply Nat.ltb_lt; lia).
      rewrite Hlt. apply bind_none.
      apply (for_acc_fail _ _ _ _ (k mod dc st) B'). intros vel s3.
      apply bind_none_k. intros cx s4.
      apply bind_none. apply read_fail. unfold slot.
      clear Hlt Hfr Hk. clearbody k.
      revert E E' B B'.
      generalize (k / dc st) (k mod dc st) ((length x - 2 * pc st) mod 2).
      intros q r r2 E E' B B'. lia. }
  assert (Hex : forall (St : Type) (s : St), @expand _ st St x s = None).
  { intros St s. unfold expand. now rewrite Hp. }
  split; [apply Hp|]. split.
  - unfold f. rewrite (bind_none _ _ _ (Hex R 0%R)). reflexivity.
  - unfold grad. apply bind_none. apply Hex.
Qed.

Lemma paramsToPos_short_witness :
  paramsToPos fit_1p2f [1; 2; 3]%R (fun _ _ => vzero) = None /\
  f fit_1p2f [1; 2; 3]%R = None /\
  grad fit_1p2f [1; 2; 3]%R [0; 0; 0; 0]%R = None.
Proof.
  apply (paramsToPos_short fit_1p2f); cbv; lia.
Defined.

(** X2.  Entries of [x] beyond the expected length are never read:
    [paramsToPos] returns the same grid with and without them. *)
Theorem paramsToPos_surplus `{Interpolation} (st : GpMotionFit)
    (x extra : list R) (pos0 : grid) :
  length x = expected_len st ->
  paramsToPos st (x ++ extra) pos0 = paramsToPos st x pos0.
Proof.
  intros Hlen. apply paramsToPos_prefix. intros i Hi.
  apply nth_error_app1. lia.
Qed.

Lemma paramsToPos_surplus_witness :
  paramsToPos fit_1p2f ([1; 2; 3; 4] ++ [5; 6])%R (fun _ _ => vzero)
  = paramsToPos fit_1p2f [1; 2; 3; 4]%R (fun _ _ => vzero).
Proof.
  apply (paramsToPos_surplus fit_1p2f). reflexivity.
Defined.

(** ** The codec: what the trajectory owes to the coefficients *)

Section TrajectoryShape.

Context {interp : Interpolation}.
Variable st : GpMotionFit.

(** Without coefficients no particle moves. *)
Lemma trajectory_static (x : list R) p fr :
  length x = expected_len st ->
  (forall i, 2 * pc st <= i -> i < expected_len st -> nth i x 0%R = 0%R) ->
  fr < fc st ->
  trajectory st x p fr = mkV (nth (2 * p) x 0%R) (nth (2 * p + 1) x 0%R).
Proof.
  intros Hlen Hzero. induction fr as [|k IH]; intros Hf; [reflexivity|].
  simpl. rewrite IH by lia.
  assert (Hk : k < fc st - 1) by lia.
  apply d2Vector_eq; simpl.
  - rewrite sumR_zero; [lra|]. intros d Hd.
    pose proof (slot_bound st k d Hk Hd). pose proof (slot_above st k d).
    rewrite Hzero by lia. lra.
  - rewrite sumR_zero; [lra|]. intros d Hd.
    pose proof (slot_bound st k d Hk Hd). pose proof (slot_above st k d).
    rewrite Hzero by lia. lra.
Qed.

(** The trajectory is linear in the parameters. *)
Lemma trajectory_linear (x y z : list R) (a b : R) p fr :
  (forall i, i < expected_len st ->
     nth i z 0%R = (a * nth i x 0 + b * nth i y 0)%R) ->
  p < pc st -> fr < fc st ->
  vx (trajectory st z p fr)
    = (a * vx (trajectory st x p fr) + b * vx (trajectory st y p fr))%R /\
  vy (trajectory st z p fr)
    = (a * vy (trajectory st x p fr) + b * vy (trajectory st y p fr))%R.
Proof.
  intros Hz Hp. induction fr as [|k IH]; intros Hf.
  - pose proof (frame0_bound st p Hp). simpl.
    rewrite !Hz by lia. split; reflexivity.
  - destruct (IH ltac:(lia)) as [IHx IHy].
    assert (Hk : k < fc st - 1) by lia.
    simpl. rewrite IHx, IHy.
    assert (Hsum : forall (sel : nat -> nat),
              (forall d, d < dc st -> sel d < expected_len st) ->
              sumR (dc st) (fun d => nth (sel d) z 0 * basis st p d)%R
              = (a * sumR (dc st) (fun d => nth (sel d) x 0 * basis st p d)
                 + b * sumR (dc st) (fun d => nth (sel d) y 0 * basis st p d))%R).
    { intros sel Hsel. rewrite <- !sumR_scal_l, <- sumR_plus.
      apply sumR_ext. intros d Hd. rewrite Hz by now apply Hsel. ring. }
    rewrite (Hsum (fun d => slot st k d)), (Hsum (fun d => slot st k d + 1)).
    + split; ring.
    + intros d Hd. pose proof (slot_bound st k d Hk Hd). lia.
    + intros d Hd. pose proof (slot_bound st k d Hk Hd). lia.
Qed.

End TrajectoryShape.

(** X3.  When every coefficient of [x] is zero, [paramsToPos] puts every
    particle at its frame-0 position in every frame. *)
Theorem paramsToPos_static `{Interpolation} (st : GpMotionFit)
    (x : list R) (pos0 : grid) :
  length x = expected_len st ->
  (forall i, 2 * pc st <= i -> i < expected_len st -> nth i x 0%R = 0%R) ->
  exists pos,
    paramsToPos st x pos0 = Some (tt, pos) /\
    forall p fr, p < pc st -> fr < fc st ->
      pos p fr = mkV (nth (2 * p) x 0%R) (nth (2 * p + 1) x 0%R).
Proof.
  intros Hlen Hzero.
  destruct (paramsToPos_run st x Hlen pos0) as (pos & Hrun & Hpos).
  exists pos. split; [exact Hrun|]. intros p fr Hp Hf.
  rewrite Hpos. unfold expanded.
  pose proof Hp as Hp'. pose proof Hf as Hf'.
  apply Nat.ltb_lt in Hp', Hf'. rewrite Hp', Hf'. simpl.
  now apply trajectory_static.
Qed.

Lemma paramsToPos_static_witness :
  exists pos,
    paramsToPos fit_1p3f [1; 2; 0; 0; 0; 0]%R (fun _ _ => vzero)
      = Some (tt, pos) /\
    forall p fr, p < 1 -> fr < 3 ->
      pos p fr = mkV (nth (2 * p) [1; 2; 0; 0; 0; 0]%R 0%R)
                     (nth (2 * p + 1) [1; 2; 0; 0; 0; 0]%R 0%R).
Proof.
  apply (paramsToPos_static fit_1p3f [1; 2; 0; 0; 0; 0]%R).
  - reflexivity.
  - intros i Hlo Hhi. cbv in Hlo, Hhi.
    do 6 (destruct i as [|i]; [try reflexivity; lia|]). lia.
Defined.

(** X4.  [paramsToPos] is linear: the positions of [a*x + b*y] are [a]
    times the positions of [x] plus [b] times the positions of [y]. *)
Theorem paramsToPos_linear `{Interpolation} (st : GpMotionFit)
    (x y z : list R) (a b : R) (pos0 : grid) :
  length x = expected_len st ->
  length y = expected_len st ->
  length z = expected_len st ->
  (forall i, i < expected_len st ->
     nth i z 0%R = (a * nth i x 0 + b * nth i y 0)%R) ->
  exists px py pz,
    paramsToPos st x pos0 = Some (tt, px) /\
    paramsToPos st y pos0 = Some (tt, py) /\
    paramsToPos st z pos0 = Some (tt, pz) /\
    forall p fr, p < pc st -> fr < fc st ->
      vx (pz p fr) = (a * vx (px p fr) + b * vx (py p fr))%R /\
      vy (pz p fr) = (a * vy (px p fr) + b * vy (py p fr))%R.
Proof.
  intros Hx Hy Hz Hlin.
  destruct (paramsToPos_run st x Hx pos0) as (px & Rx & Px).
  destruct (paramsToPos_run st y Hy pos0) as (py & Ry & Py).
  destruct (paramsToPos_run st z Hz pos0) as (pz & Rz & Pz).
  exists px, py, pz. do 3 (split; [assumption|]).
  intros p fr Hp Hf. rewrite Px, Py, Pz. unfold expanded.
  pose proof Hp as Hp'. pose proof Hf as Hf'.
  apply Nat.ltb_lt in Hp', Hf'. rewrite Hp', Hf'. simpl.
  exact (trajectory_linear st x y z a b p fr Hlin Hp Hf).
Qed.

Lemma paramsToPos_linear_witness :
  exists px py pz,
    paramsToPos fit_1p2f [1; 2; 3; 4]%R (fun _ _ => vzero) = Some (tt, px) /\
    paramsToPos fit_1p2f [0; 1; 0; 1]%R (fun _ _ => vzero) = Some (tt, py) /\
    paramsToPos fit_1p2f [2; 5; 6; 9]%R (fun _ _ => vzero) = Some (tt, pz) /\
    forall p fr, p < 1 -> fr < 2 ->
      vx (pz p fr) = (2 * vx (px p fr) + 1 * vx (py p fr))%R /\
      vy (pz p fr) = (2 * vy (px p fr) + 1 * vy (py p fr))%R.
Proof.
  apply (paramsToPos_linear fit_1p2f); try reflexivity.
  intros i Hi. cbv in Hi.
  do 4 (destruct i as [|i]; [simpl; lra|]). lia.
Defined.

(** ** The codec: [posToParams] on any grid *)

Lemma write2_other (i j : nat) (a b : R) (s : list R) :
  j <> i -> j <> i + 1 ->
  nth j (set_nth (i + 1) b (set_nth i a s)) 0%R = nth j s 0%R.
Proof.
  intros H0 H1. now rewrite !nth_set_nth_neq by assumption.
Qed.

Lemma write2_fst (i : nat) (a b : R) (s : list R) :
  i < length s -> nth i (set_nth (i + 1) b (set_nth i a s)) 0%R = a.
Proof.
  intros Hi. rewrite nth_set_nth_neq by lia. now apply nth_set_nth_eq.
Qed.

Lemma write2_snd (i : nat) (a b : R) (s : list R) :
  i + 1 < length s -> nth (i + 1) (set_nth (i + 1) b (set_nth i a s)) 0%R = b.
Proof.
  intros Hi. apply nth_set_nth_eq. now rewrite length_set_nth.
Qed.

Section CollapseAny.

Context {interp : Interpolation}.
Variable st : GpMotionFit.
Variable pos : grid.

(** Two vectors that hold the parameters of the same grid are equal. *)
Lemma collapsed_unique (s s' : list R) :
  collapsed st pos s -> collapsed st pos s' -> s = s'.
Proof.
  intros (L & F & C) (L' & F' & C'). apply nth_ext_R; [congruence|].
  intros i Hi. rewrite L in Hi.
  destruct (slot_cover st i Hi) as [(p & Hp & [-> | ->])
                                   | (fr & d & Hf & Hd & [-> | ->])].
  - destruct (F p Hp) as [-> _]. destruct (F' p Hp) as [-> _]. reflexivity.
  - destruct (F p Hp) as [_ ->]. destruct (F' p Hp) as [_ ->]. reflexivity.
  - destruct (C fr d Hf Hd) as [-> _]. destruct (C' fr d Hf Hd) as [-> _].
    reflexivity.
  - destruct (C fr d Hf Hd) as [_ ->]. destruct (C' fr d Hf Hd) as [_ ->].
    reflexivity.
Qed.

Lemma posToParams_collapsed (x0 : list R) :
  length x0 = expected_len st ->
  exists s, posToParams st pos x0 = Some (tt, s) /\ collapsed st pos s.
Proof.
  intros Hl0. unfold posToParams.
  destruct (for_inv (fun k s =>
              length s = expected_len st /\
              forall p, p < k ->
                nth (2 * p) s 0%R = vx (pos p 0) /\
                nth (2 * p + 1) s 0%R = vy (pos p 0))
            (pc st)
            (fun p => vwrite (2 * p) (vx (pos p 0)) ;;;
                      vwrite (2 * p + 1) (vy (pos p 0))) x0)
    as (s1 & Hrun1 & Hl1 & Hs1).
  { split; [exact Hl0 | intros p Hp; lia]. }
  { intros k s Hk [Hl Hs]. pose proof (frame0_bound st k Hk) as Hb.
    rewrite bind_vwrite by lia.
    rewrite vwrite_ok by (rewrite length_set_nth; lia).
    eexists. split; [reflexivity|].
    split; [now rewrite !length_set_nth|].
    intros p Hp. destruct (Nat.eq_dec p k) as [->|Hne].
    - split; [apply write2_fst | apply write2_snd]; lia.
    - rewrite !write2_other by lia. apply Hs. lia. }
  rewrite (bind_some _ _ _ _ _ Hrun1).
  destruct (for_inv (fun m s =>
              length s = expected_len st /\
              (forall p, p < pc st ->
                 nth (2 * p) s 0%R = vx (pos p 0) /\
                 nth (2 * p + 1) s 0%R = vy (pos p 0)) /\
              (forall fr d, fr < m -> d < dc st ->
                 nth (slot st fr d) s 0%R
                   = (vx (projection st pos fr d) / eigenVal st d)%R /\
                 nth (slot st fr d + 1) s 0%R
                   = (vy (projection st pos fr d) / eigenVal st d)%R))
            (fc st - 1)
            (fun fr => for_ (dc st) (fun d =>
               c <- for_acc (pc st) vzero (fun p c =>
                      let v := vsub (pos p (fr + 1)) (pos p fr) in
                      ret (mkV (vx c + vx v * basis st p d)
                               (vy c + vy v * basis st p d))) ;;
               vwrite (slot st fr d) (vx c / eigenVal st d) ;;;
               vwrite (slot st fr d + 1) (vy c / eigenVal st d))) s1)
    as (s2 & Hrun2 & Hl2 & Hf2 & Hc2).
  { split; [exact Hl1|]. split; [exact Hs1|]. intros fr d Hf. lia. }
  { intros m s Hm (Hl & Hf & Hc).
    match goal with
    | |- exists s', for_ ?n ?body ?s0 = _ /\ _ =>
      destruct (for_inv (fun q s' =>
              length s' = expected_len st /\
              (forall p, p < pc st ->
                 nth (2 * p) s' 0%R = vx (pos p 0) /\
                 nth (2 * p + 1) s' 0%R = vy (pos p 0)) /\
              (forall fr d, fr < m \/ (fr = m /\ d < q) -> d < dc st ->
                 nth (slot st fr d) s' 0%R
                   = (vx (projection st pos fr d) / eigenVal st d)%R /\
                 nth (slot st fr d + 1) s' 0%R
                   = (vy (projection st pos fr d) / eigenVal st d)%R))
           n body s0) as (s' & Hrun & Hl' & Hf' & Hc')
    end.
    - split; [exact Hl|]. split; [exact Hf|].
      intros fr d [Hfr | [_ Hq]] Hd; [now apply Hc | lia].
    - intros q sq Hq (Hlq & Hfq & Hcq).
      pose proof (slot_bound st m q Hm Hq) as Hb.
      pose proof (slot_above st m q) as Ha.
      rewrite (bind_some _ _ _ _ _ (for_acc_ret _ _ _ _)).
      rewrite project_loop.
      rewrite bind_vwrite by lia.
      rewrite vwrite_ok by (rewrite length_set_nth; lia).
      eexists. split; [reflexivity|].
      split; [now rewrite !length_set_nth|]. split.
      + intros p Hp. rewrite !write2_other by lia. now apply Hfq.
      + intros fr d Hfd Hd.
        destruct (Nat.eq_dec fr m) as [->|Hne1];
          [destruct (Nat.eq_dec d q) as [->|Hne2]|].
        * split; [apply write2_fst | apply write2_snd]; lia.
        * assert (Hne : forall b0 b1, b0 < 2 -> b1 < 2 ->
                    slot st m d + b0 <> slot st m q + b1).
          { intros b0 b1 H0 H1 Eq.
            destruct (slot_inj st _ _ _ _ _ _ Hd Hq H0 H1 Eq) as (_ & E & _).
            contradiction. }
          pose proof (Hne 0 0 ltac:(lia) ltac:(lia)).
          pose proof (Hne 0 1 ltac:(lia) ltac:(lia)).
          pose proof (Hne 1 0 ltac:(lia) ltac:(lia)).
          pose proof (Hne 1 1 ltac:(lia) ltac:(lia)).
          rewrite !write2_other by lia. apply Hcq; [lia | exact Hd].
        * assert (Hne : forall b0 b1, b0 < 2 -> b1 < 2 ->
                    slot st fr d + b0 <> slot st m q + b1).
          { intros b0 b1 H0 H1 Eq.
            destruct (slot_inj st _ _ _ _ _ _ Hd Hq H0 H1 Eq) as (E & _ & _).
            contradiction. }
          pose proof (Hne 0 0 ltac:(lia) ltac:(lia)).
          pose proof (Hne 0 1 ltac:(lia) ltac:(lia)).
          pose proof (Hne 1 0 ltac:(lia) ltac:(lia)).
          pose proof (Hne 1 1 ltac:(lia) ltac:(lia)).
          rewrite !write2_other by lia. apply Hcq; [lia | exact Hd].
    - exists s'. split; [exact Hrun|]. split; [exact Hl'|].
      split; [exact Hf'|]. intros fr d Hfr Hd. apply Hc'; [|exact Hd].
      destruct (Nat.eq_dec fr m); [right | left]; lia. }
  exists s2. split; [exact Hrun2|]. split; [exact Hl2|]. split; assumption.
Qed.

End CollapseAny.

(** X5.  With at least one frame and non-zero retained eigenvalues,
    [posToParams] on a vector of the expected length returns for every grid
    and overwrites every entry: the frame-0 slots hold the frame-0
    positions, the slots of transition [fr] and mode [d] the projection of
    the velocities on the basis column over [eigenVals[d]], and nothing of
    the old contents is left. *)
Theorem posToParams_overwrites `{Interpolation} (st : GpMotionFit)
    (pos : grid) (x0 x1 : list R) :
  1 <= fc st ->
  (forall d, d < dc st -> nth d (eigenVals st) 0%R <> 0%R) ->
  length x0 = expected_len st ->
  length x1 = expected_len st ->
  exists s,
    posToParams st pos x0 = Some (tt, s) /\
    posToParams st pos x1 = Some (tt, s) /\
    length s = expected_len st /\
    (forall p, p < pc st ->
       nth (2 * p) s 0%R = vx (pos p 0) /\
       nth (2 * p + 1) s 0%R = vy (pos p 0)) /\
    (forall fr d, fr < fc st - 1 -> d < dc st ->
       nth (2 * (pc st + dc st * fr + d)) s 0%R
         = (sumR (pc st) (fun p =>
              (vx (pos p (fr + 1)%nat) - vx (pos p fr)) * basis st p d)
            / nth d (eigenVals st) 0)%R /\
       nth (2 * (pc st + dc st * fr + d) + 1) s 0%R
         = (sumR (pc st) (fun p =>
              (vy (pos p (fr + 1)%nat) - vy (pos p fr)) * basis st p d)
            / nth d (eigenVals st) 0)%R).
Proof.
  intros _ _ H0 H1.
  destruct (posToParams_collapsed st pos x0 H0) as (s & R0 & C0).
  destruct (posToParams_collapsed st pos x1 H1) as (s' & R1 & C1).
  assert (s' = s) by (eapply collapsed_unique; eassumption). subst s'.
  exists s. split; [exact R0|]. split; [exact R1|].
  destruct C0 as (L & F & C). split; [exact L|]. split; [exact F|].
  intros fr d Hf Hd. exact (C fr d Hf Hd).
Qed.

Lemma posToParams_overwrites_witness :
  exists s,
    posToParams fit_1p2f (fun _ fr => mkV (INR fr) 1) [0; 0; 0; 0]%R
      = Some (tt, s) /\
    posToParams fit_1p2f (fun _ fr => mkV (INR fr) 1) [9; 8; 7; 6]%R
      = Some (tt, s) /\
    length s = expected_len fit_1p2f /\
    (forall p, p < pc fit_1p2f ->
       nth (2 * p) s 0%R = vx (mkV (INR 0) 1) /\
       nth (2 * p + 1) s 0%R = vy (mkV (INR 0) 1)) /\
    (forall fr d, fr < fc fit_1p2f - 1 -> d < dc fit_1p2f ->
       nth (2 * (pc fit_1p2f + dc fit_1p2f * fr + d)) s 0%R
         = (sumR (pc fit_1p2f) (fun p =>
              (vx (mkV (INR (fr + 1)) 1) - vx (mkV (INR fr) 1))
              * basis fit_1p2f p d)
            / nth d (eigenVals fit_1p2f) 0)%R /\
       nth (2 * (pc fit_1p2f + dc fit_1p2f * fr + d) + 1) s 0%R
         = (sumR (pc fit_1p2f) (fun p =>
              (vy (mkV (INR (fr + 1)) 1) - vy (mkV (INR fr) 1))
              * basis fit_1p2f p d)
            / nth d (eigenVals fit_1p2f) 0)%R).
Proof.
  apply (posToParams_overwrites fit_1p2f (fun _ fr => mkV (INR fr) 1)).
  - simpl. lia.
  - intros d Hd. cbv in Hd. assert (d = 0) as -> by lia. simpl. lra.
  - reflexivity.
  - reflexivity.
Defined.



(** ** The gradient: the terms that are exact *)

Lemma nth_set_sub (idx i : nat) (w : R) (s : list R) :
  idx < length s ->
  nth i (set_nth idx (nth idx s 0 - w)%R s) 0%R
  = (nth i s 0 - ind (i =? idx) * w)%R.
Proof.
  intros Hi. unfold ind. destruct (i =? idx) eqn:E.
  - apply Nat.eqb_eq in E. subst i. rewrite nth_set_nth_eq by exact Hi. lra.
  - apply Nat.eqb_neq in E. rewrite nth_set_nth_neq by exact E. lra.
Qed.

Lemma nth_set_add (idx i : nat) (w : R) (s : list R) :
  idx < length s ->
  nth i (set_nth idx (nth idx s 0 + w)%R s) 0%R
  = (nth i s 0 + ind (i =? idx) * w)%R.
Proof.
  intros Hi. unfold ind. destruct (i =? idx) eqn:E.
  - apply Nat.eqb_eq in E. subst i. rewrite nth_set_nth_eq by exact Hi. lra.
  - apply Nat.eqb_neq in E. rewrite nth_set_nth_neq by exact E. lra.
Qed.

(** An entry of [x] with coordinate [i] replaced by [t] is affine in [t]. *)
Lemma nth_set_nth_affine (i a : nat) (t : R) (x : list R) :
  i < length x ->
  nth a (set_nth i t x) 0%R
  = (ind (i =? a) * t + (1 - ind (i =? a)) * nth a x 0)%R.
Proof.
  intros Hi. unfold ind. destruct (i =? a) eqn:E.
  - apply Nat.eqb_eq in E. subst a. rewrite nth_set_nth_eq by exact Hi. lra.
  - apply Nat.eqb_neq in E. rewrite nth_set_nth_neq by auto. lra.
Qed.

Lemma ind_nth (i a : nat) (x : list R) :
  (ind (i =? a) * nth i x 0 + (1 - ind (i =? a)) * nth a x 0)%R
  = nth a x 0%R.
Proof.
  unfold ind. destruct (i =? a) eqn:E.
  - apply Nat.eqb_eq in E. subst a. lra.
  - lra.
Qed.

(** A loop that adds [C k i] to entry [i] in iteration [k]. *)
Lemma for_vsum n (body : nat -> M (list R) unit) (C : nat -> nat -> R)
    (L : nat) s0 :
  length s0 = L ->
  (forall k s, k < n -> length s = L ->
     exists s', body k s = Some (tt, s') /\ length s' = L /\
                forall i, nth i s' 0%R = (nth i s 0 + C k i)%R) ->
  exists s', for_ n body s0 = Some (tt, s') /\ length s' = L /\
             forall i, nth i s' 0%R
                       = (nth i s0 0 + sumR n (fun k => C k i))%R.
Proof.
  intros H0 Hstep.
  apply (for_inv (fun k s => length s = L /\
           forall i, nth i s 0%R = (nth i s0 0 + sumR k (fun j => C j i))%R)).
  - split; [exact H0 | intros i; simpl; lra].
  - intros k s Hk [Hl Hs].
    destruct (Hstep k s Hk Hl) as (s' & Hb & Hl' & Hs').
    exists s'. split; [exact Hb|]. split; [exact Hl'|].
    intros i. rewrite Hs', Hs. simpl. lra.
Qed.

Lemma derivable_pt_lim_sumR n (F : nat -> R -> R) (l : nat -> R) (x : R) :
  (forall k, k < n -> derivable_pt_lim (F k) x (l k)) ->
  derivable_pt_lim (fun t => sumR n (fun k => F k t)) x (sumR n l).
Proof.
  induction n as [|n IH]; intros H; simpl.
  - apply (derivable_pt_lim_const 0%R).
  - apply (derivable_pt_lim_plus (fun t => sumR n (fun k => F k t)) (F n)).
    + apply IH. intros k Hk. apply H. lia.
    + apply H. lia.
Qed.

(** The derivative of a weighted sum of two squared affine functions. *)
Lemma deriv_sq2 (k A B C D x0 : R) :
  derivable_pt_lim
    (fun t => k * ((A * t + B) * (A * t + B) + (C * t + D) * (C * t + D)))%R
    x0 (2 * k * (A * (A * x0 + B) + C * (C * x0 + D)))%R.
Proof.
  apply (derivable_pt_lim_pointwise _
           (fun t => (k * (A * A + C * C)) * t * t
                     + (2 * k * (A * B + C * D)) * t
                     + k * (B * B + D * D))%R).
  - intros t. ring.
  - replace (2 * k * (A * (A * x0 + B) + C * (C * x0 + D)))%R
      with (2 * (k * (A * A + C * C)) * x0 + 2 * k * (A * B + C * D))%R
      by ring.
    apply deriv_quadratic.
Qed.

Ltac case_ind :=
  unfold ind;
  repeat match goal with
         | |- context [?a =? ?b] => destruct (a =? b) eqn:?
         end;
  reflect_nat;
  repeat match goal with
         | H : ?i = _ |- _ => is_var i; rewrite <- H
         end.

Section GradientTerms.

Context {interp : Interpolation}.
Variable st : GpMotionFit.
Variable x : list R.
Hypothesis Hx : length x = expected_len st.

(** What one pass of lines 169-170 adds to entry [i]. *)
Definition reg_pass (fr d i : nat) : R :=
  (ind (i =? slot st fr d) * (2 * nth (slot st fr d) x 0)
   + ind (i =? slot st fr d + 1) * (2 * nth (slot st fr d + 1) x 0))%R.

(** What one pass of lines 180-193 adds to entry [i]. *)
Definition acc_pass (fr d i : nat) : R :=
  let dcx := (nth (slot st (fr + 1) d) x 0 - nth (slot st fr d) x 0)%R in
  let dcy := (nth (slot st (fr + 1) d + 1) x 0
              - nth (slot st fr d + 1) x 0)%R in
  let sa2 := (sig_acc_px st * sig_acc_px st)%R in
  (- (ind (i =? slot st fr d) * (2 * eigenVal st d * dcx / sa2))
   - ind (i =? slot st fr d + 1) * (2 * eigenVal st d * dcy / sa2)
   + ind (i =? slot st (fr + 1) d) * (2 * eigenVal st d * dcx / sa2)
   + ind (i =? slot st (fr + 1) d + 1) * (2 * eigenVal st d * dcy / sa2))%R.

Lemma reg_pass_deriv fr d i :
  i < length x ->
  derivable_pt_lim
    (fun t => let c := coef st (set_nth i t x) fr d in
              vx c * vx c + vy c * vy c)%R
    (nth i x 0%R) (reg_pass fr d i).
Proof.
  intros Hi.
  set (e0 := ind (i =? slot st fr d)).
  set (e1 := ind (i =? slot st fr d + 1)).
  set (xi := nth i x 0%R).
  apply (derivable_pt_lim_pointwise _
    (fun t => 1 * ((e0 * t + (nth (slot st fr d) x 0 - e0 * xi))
                   * (e0 * t + (nth (slot st fr d) x 0 - e0 * xi))
                   + (e1 * t + (nth (slot st fr d + 1) x 0 - e1 * xi))
                     * (e1 * t + (nth (slot st fr d + 1) x 0 - e1 * xi))))%R).
  - intros t. cbn [coef vx vy]. rewrite !nth_set_nth_affine by exact Hi.
    subst e0 e1 xi. case_ind; ring.
  - replace (reg_pass fr d i)
      with (2 * 1 * (e0 * (e0 * xi + (nth (slot st fr d) x 0 - e0 * xi))
                     + e1 * (e1 * xi
                             + (nth (slot st fr d + 1) x 0 - e1 * xi))))%R
      by (unfold reg_pass; subst e0 e1; ring).
    apply deriv_sq2.
Qed.

Lemma acc_pass_deriv fr d i :
  i < length x ->
  derivable_pt_lim
    (fun t => let dlt := vsub (coef st (set_nth i t x) (fr + 1) d)
                              (coef st (set_nth i t x) fr d) in
              eigenVal st d * (vx dlt * vx dlt + vy dlt * vy dlt)
              / (sig_acc_px st * sig_acc_px st))%R
    (nth i x 0%R) (acc_pass fr d i).
Proof.
  intros Hi.
  set (a0 := slot st fr d). set (a1 := slot st (fr + 1) d).
  set (A := (ind (i =? a1) - ind (i =? a0))%R).
  set (C := (ind (i =? a1 + 1) - ind (i =? a0 + 1))%R).
  set (xi := nth i x 0%R).
  set (dcx := (nth a1 x 0 - nth a0 x 0)%R).
  set (dcy := (nth (a1 + 1) x 0 - nth (a0 + 1) x 0)%R).
  set (k := (eigenVal st d / (sig_acc_px st * sig_acc_px st))%R).
  apply (derivable_pt_lim_pointwise _
    (fun t => k * ((A * t + (dcx - A * xi)) * (A * t + (dcx - A * xi))
                   + (C * t + (dcy - C * xi)) * (C * t + (dcy - C * xi))))%R).
  - intros t. cbn [coef vx vy vsub]. fold a0 a1.
    rewrite !nth_set_nth_affine by exact Hi.
    subst A C xi dcx dcy k. unfold Rdiv. case_ind; ring.
  - replace (acc_pass fr d i)
      with (2 * k * (A * (A * xi + (dcx - A * xi))
                     + C * (C * xi + (dcy - C * xi))))%R
      by (unfold acc_pass; fold a0 a1; subst A C dcx dcy k;
          unfold Rdiv; ring).
    apply deriv_sq2.
Qed.

(** Lines 166-171 as additions, when the loop stays on retained modes. *)
Lemma grad_reg_sum (g : list R) :
  dc st = pc st -> length g = expected_len st ->
  exists g', grad_reg st x g = Some (tt, g') /\
    length g' = expected_len st /\
    forall i, nth i g' 0%R
      = (nth i g 0 + sumR (fc st - 1) (fun fr =>
                       sumR (pc st) (fun d => reg_pass fr d i)))%R.
Proof.
  intros Hdc Hg. unfold grad_reg.
  apply (for_vsum _ _ (fun fr i => sumR (pc st) (fun d => reg_pass fr d i)));
    [exact Hg|].
  intros fr s Hf Hl.
  apply (for_vsum _ _ (fun d i => reg_pass fr d i)); [exact Hl|].
  intros d s1 Hd Hl1.
  pose proof (slot_bound st fr d Hf ltac:(lia)) as Hb.
  rewrite bind_read by lia. rewrite bind_vmodify by lia.
  rewrite bind_read by lia.
  rewrite vmodify_ok by (rewrite length_set_nth; lia).
  eexists. split; [reflexivity|]. split; [now rewrite !length_set_nth|].
  intros i. rewrite nth_set_add by (rewrite length_set_nth; lia).
  rewrite nth_set_add by lia. unfold reg_pass. ring.
Qed.

(** Lines 177-194 as additions. *)
Lemma grad_acc_sum (g : list R) :
  (0 < sig_acc_px st)%R -> length g = expected_len st ->
  exists g', grad_acc st x g = Some (tt, g') /\
    length g' = expected_len st /\
    forall i, nth i g' 0%R
      = (nth i g 0 + sumR (fc st - 2) (fun fr =>
                       sumR (dc st) (fun d => acc_pass fr d i)))%R.
Proof.
  intros Hsa Hg. unfold grad_acc.
  destruct (Rlt_dec 0 (sig_acc_px st)) as [_|Hn]; [|contradiction].
  cbv zeta.
  apply (for_vsum _ _ (fun fr i => sumR (dc st) (fun d => acc_pass fr d i)));
    [exact Hg|].
  intros fr s Hf Hl.
  apply (for_vsum _ _ (fun d i => acc_pass fr d i)); [exact Hl|].
  intros d s1 Hd Hl1.
  pose proof (slot_bound st fr d ltac:(lia) Hd) as Hb0.
  pose proof (slot_bound st (fr + 1) d ltac:(lia) Hd) as Hb1.
  rewrite !bind_read by lia.
  rewrite bind_vmodify by lia.
  rewrite bind_vmodify by (rewrite !length_set_nth; lia).
  rewrite bind_vmodify by (rewrite !length_set_nth; lia).
  rewrite vmodify_ok by (rewrite !length_set_nth; lia).
  eexists. split; [reflexivity|]. split; [now rewrite !length_set_nth|].
  intros i.
  rewrite nth_set_add by (rewrite !length_set_nth; lia).
  rewrite nth_set_add by (rewrite !length_set_nth; lia).
  rewrite nth_set_sub by (rewrite !length_set_nth; lia).
  rewrite nth_set_sub by lia.
  unfold acc_pass. cbv zeta. ring.
Qed.

End GradientTerms.

(** X7.  When no mode is dropped ([dc = pc]), the regularisation loop of
    [grad] (lines 166-171) adds to [gradDest] the exact gradient of the
    regularisation term of [f]: for every coordinate [i], what entry [i]
    gains is the partial derivative of [E_reg] in [x[i]]. *)
Theorem grad_reg_is_gradient `{Interpolation} (st : GpMotionFit)
    (x g : list R) :
  dc st = pc st ->
  length x = expected_len st -> length g = expected_len st ->
  exists g',
    grad_reg st x g = Some (tt, g') /\
    length g' = expected_len st /\
    forall i, i < expected_len st ->
      derivable_pt_lim (fun t => E_reg st (set_nth i t x)) (nth i x 0%R)
                       (nth i g' 0 - nth i g 0)%R.
Proof.
  intros Hdc Hx Hg.
  destruct (grad_reg_sum st x Hx g Hdc Hg) as (g' & Hrun & Hl & Hsum).
  exists g'. split; [exact Hrun|]. split; [exact Hl|].
  intros i Hi.
  replace (nth i g' 0 - nth i g 0)%R
    with (sumR (fc st - 1) (fun fr =>
            sumR (pc st) (fun d => reg_pass st x fr d i)))
    by (rewrite Hsum; ring).
  unfold E_reg. rewrite Hdc.
  apply (derivable_pt_lim_sumR _
           (fun fr t => sumR (pc st) (fun d =>
              let c := coef st (set_nth i t x) fr d in
              vx c * vx c + vy c * vy c)%R)).
  intros fr Hf.
  apply (derivable_pt_lim_sumR _
           (fun d t => let c := coef st (set_nth i t x) fr d in
                       vx c * vx c + vy c * vy c)%R).
  intros d Hd. apply reg_pass_deriv. lia.
Qed.

Lemma grad_reg_is_gradient_witness :
  exists g',
    grad_reg fit_1p3f [1; 2; 3; 4; 5; 6]%R [0; 0; 0; 0; 0; 0]%R
      = Some (tt, g') /\
    length g' = expected_len fit_1p3f /\
    forall i, i < expected_len fit_1p3f ->
      derivable_pt_lim
        (fun t => E_reg fit_1p3f (set_nth i t [1; 2; 3; 4; 5; 6]%R))
        (nth i [1; 2; 3; 4; 5; 6]%R 0%R)
        (nth i g' 0 - nth i [0; 0; 0; 0; 0; 0]%R 0)%R.
Proof.
  apply (grad_reg_is_gradient fit_1p3f); reflexivity.
Defined.

(** X8.  The acceleration part of [grad] (lines 173-195) adds to [gradDest]
    the exact gradient of the acceleration term of [f], enabled or not, for
    every number of retained modes. *)
Theorem grad_acc_is_gradient `{Interpolation} (st : GpMotionFit)
    (x g : list R) :
  length x = expected_len st -> length g = expected_len st ->
  exists g',
    grad_acc st x g = Some (tt, g') /\
    length g' = expected_len st /\
    forall i, i < expected_len st ->
      derivable_pt_lim (fun t => acc_term st (set_nth i t x)) (nth i x 0%R)
                       (nth i g' 0 - nth i g 0)%R.
Proof.
  intros Hx Hg. unfold acc_term.
  destruct (Rlt_dec 0 (sig_acc_px st)) as [Hsa|Hsa].
  - destruct (grad_acc_sum st x Hx g Hsa Hg) as (g' & Hrun & Hl & Hsum).
    exists g'. split; [exact Hrun|]. split; [exact Hl|].
    intros i Hi.
    replace (nth i g' 0 - nth i g 0)%R
      with (sumR (fc st - 2) (fun fr =>
              sumR (dc st) (fun d => acc_pass st x fr d i)))
      by (rewrite Hsum; ring).
    unfold E_acc.
    apply (derivable_pt_lim_sumR _
             (fun fr t => sumR (dc st) (fun d =>
                let dlt := vsub (coef st (set_nth i t x) (fr + 1) d)
                                (coef st (set_nth i t x) fr d) in
                eigenVal st d * (vx dlt * vx dlt + vy dlt * vy dlt)
                / (sig_acc_px st * sig_acc_px st))%R)).
    intros fr Hf.
    apply (derivable_pt_lim_sumR _
             (fun d t =>
                let dlt := vsub (coef st (set_nth i t x) (fr + 1) d)
                                (coef st (set_nth i t x) fr d) in
                eigenVal st d * (vx dlt * vx dlt + vy dlt * vy dlt)
                / (sig_acc_px st * sig_acc_px st))%R).
    intros d Hd. apply acc_pass_deriv. lia.
  - exists g. split.
    + unfold grad_acc. destruct (Rlt_dec 0 (sig_acc_px st));
        [contradiction | reflexivity].
    + split; [exact Hg|]. intros i Hi.
      replace (nth i g 0 - nth i g 0)%R with 0%R by ring.
      apply (derivable_pt_lim_const 0%R).
Qed.

Lemma grad_acc_is_gradient_witness :
  exists g',
    grad_acc fit_1p3f [1; 2; 3; 4; 5; 6]%R [0; 0; 0; 0; 0; 0]%R
      = Some (tt, g') /\
    length g' = expected_len fit_1p3f /\
    forall i, i < expected_len fit_1p3f ->
      derivable_pt_lim
        (fun t => acc_term fit_1p3f (set_nth i t [1; 2; 3; 4; 5; 6]%R))
        (nth i [1; 2; 3; 4; 5; 6]%R 0%R)
        (nth i g' 0 - nth i [0; 0; 0; 0; 0; 0]%R 0)%R.
Proof.
  apply (grad_acc_is_gradient fit_1p3f); reflexivity.
Defined.

(** ** The gradient: when it is defined *)

Lemma grad_defined_few_frames `{Interpolation} (st : GpMotionFit)
    (x g : list R) :
  fc st <= 1 ->
  length x = expected_len st -> length g = expected_len st ->
  exists g', grad st x g = Some (tt, g') /\ length g' = expected_len st.
Proof.
  intros Hfc Hx Hg. unfold grad.
  destruct (expand_run st x Hx g) as (pos & Hex & _).
  rewrite (bind_some _ _ _ _ _ Hex). cbv zeta.
  rewrite (bind_some _ _ _ _ _ (grad_zero_run g)).
  assert (H0 : length (repeat 0%R (length g)) = expected_len st)
    by now rewrite repeat_length.
  destruct (grad_frame0_defined st (grad_ccg st pos) _ H0) as (s1 & R1 & L1).
  rewrite (bind_some _ _ _ _ _ R1).
  destruct (grad_coef_run st (grad_ccg st pos) s1 L1) as (s2 & R2 & C2).
  assert (L2 : length s2 = expected_len st)
    by (destruct C2 as [L _]; congruence).
  rewrite (bind_some _ _ _ _ _ R2).
  assert (R3 : grad_reg st x s2 = Some (tt, s2)).
  { unfold grad_reg. replace (fc st - 1) with 0 by lia. reflexivity. }
  rewrite (bind_some _ _ _ _ _ R3).
  apply grad_acc_defined; assumption.
Qed.

(** X9.  For [x] and [gradDest] of the expected length, [grad] stays within
    both vectors exactly when no mode is dropped ([pc <= dc]) or there is no
    frame transition ([fc <= 1]); otherwise it has no defined result. *)
Theorem grad_defined_iff `{Interpolation} (st : GpMotionFit)
    (x g : list R) :
  length x = expected_len st -> length g = expected_len st ->
  (exists g', grad st x g = Some (tt, g') /\ length g' = expected_len st)
  <-> (pc st <= dc st \/ fc st <= 1).
Proof.
  intros Hx Hg. split.
  - intros (g' & Hrun & _).
    destruct (Nat.le_gt_cases (pc st) (dc st)) as [Hle|Hgt]; [now left|].
    destruct (Nat.le_gt_cases (fc st) 1) as [Hf|Hf]; [now right|].
    rewrite (grad_oob st x g Hgt Hf Hx) in Hrun. discriminate.
  - intros [Hle|Hf].
    + now apply grad_defined.
    + now apply grad_defined_few_frames.
Qed.

Lemma grad_defined_iff_witness :
  (exists g', grad fit_1p3f [1; 2; 3; 4; 5; 6]%R [0; 0; 0; 0; 0; 0]%R
              = Some (tt, g') /\ length g' = expected_len fit_1p3f)
  <-> (pc fit_1p3f <= dc fit_1p3f \/ fc fit_1p3f <= 1).
Proof.
  apply (grad_defined_iff fit_1p3f); reflexivity.
Defined.

(** ** The energy: motionless trajectories and the penalties *)



(** X11.  With non-negative eigenvalues the two penalty terms never lower
    the energy: [f] is at least the negated total correlation along the
    trajectory. *)
Theorem f_at_least_correlation `{Interpolation} (st : GpMotionFit)
    (x : list R) :
  length x = expected_len st ->
  (forall d, d < dc st -> (0 <= eigenVal st d)%R) ->
  exists e, f st x = Some e /\ (E_corr st x <= e)%R.
Proof.
  intros Hlen Hev.
  unfold f. destruct (expand_run st x Hlen 0%R) as (pos & Hex & Hpos).
  rewrite (bind_some _ _ _ _ _ Hex).
  rewrite (bind_some _ _ _ _ _ (f_corr_run st x pos _ Hpos)).
  rewrite (bind_some _ _ _ _ _ (f_reg_run st x Hlen _)).
  rewrite (bind_some _ _ _ _ _ (f_acc_run st x Hlen _)).
  simpl. eexists. split; [reflexivity|].
  assert (Hreg : (0 <= E_reg st x)%R).
  { unfold E_reg. apply sumR_nonneg. intros fr _. apply sumR_nonneg.
    intros d _. cbv zeta. nra. }
  destruct (Rlt_dec 0 (sig_acc_px st)) as [Hsa|Hsa]; [|lra].
  assert (Hacc : (0 <= E_acc st x)%R).
  { unfold E_acc. apply sumR_nonneg. intros fr _. apply sumR_nonneg.
    intros d Hd. cbv zeta. pose proof (Hev d Hd).
    apply Rmult_le_pos; [apply Rmult_le_pos; [assumption | nra]|].
    left. apply Rinv_0_lt_compat. nra. }
  lra.
Qed.

Lemma f_at_least_correlation_witness :
  exists e, f fit_1p3f [1; 2; 3; 4; 5; 6]%R = Some e /\
            (E_corr fit_1p3f [1; 2; 3; 4; 5; 6]%R <= e)%R.
Proof.
  apply (f_at_least_correlation fit_1p3f).
  - reflexivity.
  - intros d Hd. cbv in Hd. assert (d = 0) as -> by lia.
    unfold eigenVal. simpl. lra.
Defined.

(** ** The constructor: the covariance and the constructed state *)

Lemma exp_le_1 (y : R) : (y <= 0)%R -> (exp y <= 1)%R.
Proof.
  intros [Hlt | ->].
  - left. rewrite <- exp_0. now apply exp_increasing.
  - right. apply exp_0.
Qed.

Lemma norm2_nonneg (u : d2Vector) : (0 <= norm2 u)%R.
Proof. unfold norm2. nra. Qed.

Lemma norm2_vsub_diag (u : d2Vector) : norm2 (vsub u u) = 0%R.
Proof. unfold norm2, vsub. simpl. ring. Qed.

Lemma kernel_le (e : bool) (sv sd dd : R) :
  sd <> 0%R -> (0 <= dd)%R ->
  (kernel e (sv * sv) (sd * sd) dd <= sv * sv)%R.
Proof.
  intros Hsd Hdd. unfold kernel.
  assert (Hsd2 : (0 < sd * sd)%R) by nra.
  assert (Hq : (0 <= dd / (sd * sd))%R).
  { apply Rmult_le_pos; [exact Hdd|]. left. now apply Rinv_0_lt_compat. }
  assert (Hexp : ((if e then exp (- sqrt (dd / (sd * sd)))
                   else exp (-0.5 * dd / (sd * sd))) <= 1)%R).
  { destruct e; apply exp_le_1.
    - pose proof (sqrt_pos (dd / (sd * sd))). lra.
    - unfold Rdiv in *. rewrite Rmult_assoc.
      set (q := (dd * / (sd * sd))%R) in *. lra. }
  assert (Hsv : (0 <= sv * sv)%R) by nra.
  nra.
Qed.

Lemma kernel_zero_distance (e : bool) (sv2 sd2 : R) :
  kernel e sv2 sd2 0 = sv2.
Proof.
  unfold kernel. destruct e.
  - replace (0 / sd2)%R with 0%R by (unfold Rdiv; ring).
    rewrite sqrt_0, Ropp_0, exp_0. ring.
  - unfold Rdiv. rewrite Rmult_0_r, Rmult_0_l, exp_0. ring.
Qed.

Lemma kernel_pos (e : bool) (sv sd2 dd : R) :
  sv <> 0%R -> (0 < kernel e (sv * sv) sd2 dd)%R.
Proof.
  intros Hsv. unfold kernel. apply Rmult_lt_0_compat; [nra|].
  destruct e; apply exp_pos.
Qed.

(** X12.  For a non-zero [sig_div_px] and particles [i, j < pc], the
    diagonal of the covariance matrix is [sig_vel_px^2] for either kernel,
    and no entry is negative or exceeds the diagonal. *)
Theorem covariance_diagonal_bounds (expKer : bool) (pc : nat)
    (sig_vel_px sig_div_px : R) (positions : list d2Vector) (i j : nat) :
  sig_div_px <> 0%R -> i < pc -> j < pc ->
  let A := covariance expKer pc sig_vel_px sig_div_px positions in
  A i i = (sig_vel_px * sig_vel_px)%R /\
  (0 <= A i j <= A i i)%R.
Proof.
  intros Hsd Hi Hj A. subst A.
  rewrite !covariance_entry by assumption. unfold pair_kernel.
  rewrite norm2_vsub_diag, kernel_zero_distance.
  split; [reflexivity|]. split.
  - apply kernel_nonneg.
  - apply kernel_le; [exact Hsd | apply norm2_nonneg].
Qed.

Lemma covariance_diagonal_bounds_witness :
  let A := covariance true 2 3 2 [vzero; mkV 3 4] in
  A 0 0 = (3 * 3)%R /\ (0 <= A 0%nat 1%nat <= A 0%nat 0%nat)%R.
Proof.
  apply (covariance_diagonal_bounds true 2 3 2 [vzero; mkV 3 4] 0 1);
    [lra | lia | lia].
Defined.

Lemma make_eigenVals_length (dc : nat) (S : Matrix1D) :
  length (make_eigenVals dc S) = dc.
Proof.
  unfold make_eigenVals.
  apply (loop_invariant (fun _ (ev : list R) => length ev = dc)).
  - apply repeat_length.
  - intros m ev _ Hl. now rewrite length_set_nth.
Qed.

(** X13.  The constructed fit retains [min(maxDims, pc)] modes, stores one
    eigenvalue per retained mode, [eigenVals[d] = S(d)], and the basis
    entries [sqrt(S(d)) * Vt(p,d)]. *)
Theorem new_fit_shape `{Interpolation} `{SvdHelper}
    (pc fc : nat) (correlation : nat -> nat -> Image)
    (sig_vel_px sig_div_px sig_acc_px : R) (maxDims : nat)
    (positions perFrameOffsets : list d2Vector)
    (threads : nat) (expKer : bool) :
  let A := covariance expKer pc sig_vel_px sig_div_px positions in
  let S := snd (fst (decompose pc A)) in
  let Vt := snd (decompose pc A) in
  let st := GpMotionFit_new pc fc correlation sig_vel_px sig_div_px
              sig_acc_px maxDims positions perFrameOffsets threads expKer in
  dc st = Nat.min maxDims pc /\
  length (eigenVals st) = dc st /\
  (forall d, d < dc st -> eigenVal st d = S d) /\
  (forall p d, p < pc -> d < dc st ->
     basis st p d = (sqrt (S d) * Vt p d)%R).
Proof.
  intros A S Vt st. split; [|split; [|split]].
  - simpl. destruct (pc <? maxDims) eqn:E.
    + apply Nat.ltb_lt in E. lia.
    + apply Nat.ltb_ge in E. lia.
  - apply make_eigenVals_length.
  - intros d Hd. apply make_eigenVals_entry. exact Hd.
  - intros p d Hp Hd. apply make_basis_entry; assumption.
Qed.

(** X14.  On a constructed fit with a frame transition, [grad] stays within
    [x] and [gradDest] of the expected length exactly when [maxDims] is at
    least the number of particles. *)
Theorem new_fit_grad_defined_iff `{Interpolation} `{SvdHelper}
    (np nf : nat) (correlation : nat -> nat -> Image)
    (sig_vel_px sig_div_px sig_acc_px : R) (maxDims : nat)
    (positions perFrameOffsets : list d2Vector)
    (threads : nat) (expKer : bool) (x g : list R) :
  let st := GpMotionFit_new np nf correlation sig_vel_px sig_div_px
              sig_acc_px maxDims positions perFrameOffsets threads expKer in
  2 <= nf ->
  length x = expected_len st -> length g = expected_len st ->
  (exists g', grad st x g = Some (tt, g')) <-> np <= maxDims.
Proof.
  intros st Hfc Hx Hg.
  assert (Hdc : dc st = if np <? maxDims then np else maxDims)
    by reflexivity.
  assert (Hpc : pc st = np) by reflexivity.
  split.
  - intros (g' & Hrun).
    destruct (Nat.le_gt_cases np maxDims) as [Hle|Hgt]; [exact Hle|].
    assert (Hlt : dc st < pc st).
    { rewrite Hdc, Hpc.
      destruct (np <? maxDims) eqn:E; [apply Nat.ltb_lt in E|]; lia. }
    rewrite (grad_oob st x g Hlt Hfc Hx) in Hrun. discriminate.
  - intros Hle.
    assert (Hge : pc st <= dc st).
    { rewrite Hdc, Hpc.
      destruct (np <? maxDims) eqn:E; [|apply Nat.ltb_ge in E]; lia. }
    destruct (grad_defined st x g Hge Hx Hg) as (g' & Hrun & _).
    now exists g'.
Qed.

Lemma new_fit_grad_defined_iff_witness :
  let st := @GpMotionFit_new ramp diag_svd 2 2 (fun _ _ => vzero) 1 1 0 1
              [vzero; mkV 3 4] [vzero; vzero] 1 true in
  (exists g', grad st [0; 0; 0; 0; 1; 1]%R [0; 0; 0; 0; 0; 0]%R
              = Some (tt, g')) <-> 2 <= 1.
Proof.
  apply (@new_fit_grad_defined_iff ramp diag_svd
           2 2 (fun _ _ => vzero) 1 1 0 1
           [vzero; mkV 3 4] [vzero; vzero] 1 true);
    [lia | reflexivity | reflexivity].
Defined.

(** X15.  On a constructed fit with at least one frame whose retained
    singular values are positive and whose retained vectors are
    orthonormal, [paramsToPos] followed by [posToParams] returns the
    parameter vector it started from. *)
Theorem new_fit_roundtrip `{Interpolation} `{SvdHelper}
    (np nf : nat) (correlation : nat -> nat -> Image)
    (sig_vel_px sig_div_px sig_acc_px : R) (maxDims : nat)
    (positions perFrameOffsets : list d2Vector)
    (threads : nat) (expKer : bool) (x x0 : list R) (pos0 : grid) :
  let A := covariance expKer np sig_vel_px sig_div_px positions in
  let S := snd (fst (decompose np A)) in
  let Vt := snd (decompose np A) in
  let st := GpMotionFit_new np nf correlation sig_vel_px sig_div_px
              sig_acc_px maxDims positions perFrameOffsets threads expKer in
  1 <= nf ->
  length x = expected_len st -> length x0 = expected_len st ->
  (forall d, d < dc st -> (0 < S d)%R) ->
  (forall d d', d < dc st -> d' < dc st ->
     sumR np (fun p => Vt p d * Vt p d')%R = if d =? d' then 1%R else 0%R) ->
  exists pos,
    paramsToPos st x pos0 = Some (tt, pos) /\
    posToParams st pos x0 = Some (tt, x).
Proof.
  intros A S Vt st Hfc Hx Hx0 HS HV.
  destruct (new_basis_orthogonal np nf correlation sig_vel_px sig_div_px
              sig_acc_px maxDims positions perFrameOffsets threads expKer
              HS HV) as [Hev Horth].
  destruct (paramsToPos_run st x Hx pos0) as (pos & Hrun & Hpos).
  exists pos. split; [exact Hrun|].
  apply posToParams_run; try assumption.
  intros p fr Hp Hf. rewrite Hpos. unfold expanded.
  apply Nat.ltb_lt in Hp, Hf. now rewrite Hp, Hf.
Qed.

Lemma new_fit_roundtrip_witness :
  let st := @GpMotionFit_new ramp diag_svd 1 2 (fun _ _ => vzero) 1 1 0 1
              [vzero] [vzero; vzero] 1 true in
  exists pos,
    paramsToPos st [1; 2; 3; 4]%R (fun _ _ => vzero) = Some (tt, pos) /\
    posToParams st pos [0; 0; 0; 0]%R = Some (tt, [1; 2; 3; 4]%R).
Proof.
  apply (@new_fit_roundtrip ramp diag_svd
           1 2 (fun _ _ => vzero) 1 1 0 1 [vzero] [vzero; vzero] 1 true).
  - lia.
  - reflexivity.
  - reflexivity.
  - intros d Hd. simpl.
    assert (d = 0) as -> by (cbv in Hd; lia).
    rewrite covariance_entry by lia. apply kernel_pos. lra.
  - intros d d' Hd Hd'.
    assert (d = 0) as -> by (cbv in Hd; lia).
    assert (d' = 0) as -> by (cbv in Hd'; lia).
    simpl. lra.
Defined.

(** ** Bounds of the remaining entry points *)

Lemma bind_success {St A B} (m : M St A) (k : A -> M St B) s r :
  bind m k s = Some r -> exists a s1, m s = Some (a, s1) /\ k a s1 = Some r.
Proof.
  unfold bind. destruct (m s) as [[a s1]|]; [|discriminate].
  intros E. now exists a, s1.
Qed.

Lemma vmodify_success i h (s : list R) r :
  vmodify i h s = Some r -> i < length s /\ length (snd r) = length s.
Proof.
  unfold vmodify. destruct (nth_error s i) eqn:E; [|discriminate].
  intros [= <-]. split.
  - apply nth_error_Some. congruence.
  - simpl. apply length_set_nth.
Qed.

(** What the successful run of a loop tells about its iterations. *)
Lemma for_acc_success {St A} (P : St -> Prop) (Q : nat -> Prop) n
    (body : nat -> A -> M St A) a0 s0 r :
  for_acc n a0 body s0 = Some r -> P s0 ->
  (forall k a s r', k < n -> P s -> body k a s = Some r' ->
     P (snd r') /\ Q k) ->
  P (snd r) /\ forall k, k < n -> Q k.
Proof.
  revert r. induction n as [|n IH]; intros r Hrun H0 Hstep.
  - injection Hrun as <-. split; [exact H0 | intros k Hk; lia].
  - simpl in Hrun. apply bind_success in Hrun.
    destruct Hrun as (a & s1 & Hn & Hb).
    destruct (IH (a, s1) Hn H0) as [HP HQ].
    { intros k a1 s r' Hk. apply Hstep. lia. }
    destruct (Hstep n a s1 r (Nat.lt_succ_diag_r n) HP Hb) as [HP' HQ'].
    split; [exact HP'|]. intros k Hk.
    destruct (Nat.eq_dec k n) as [->|Hne]; [exact HQ' | apply HQ; lia].
Qed.

(** X16.  A vector shorter than the expected length makes [posToParams]
    write out of range, for every grid. *)
Theorem posToParams_short `{Interpolation} (st : GpMotionFit)
    (pos : grid) (x0 : list R) :
  length x0 < expected_len st ->
  posToParams st pos x0 = None.
Proof.
  intros Hshort.
  destruct (posToParams st pos x0) as [r|] eqn:Hrun; [exfalso|reflexivity].
  unfold posToParams in Hrun. apply bind_success in Hrun.
  destruct Hrun as ([] & s1 & Hrun1 & Hrun2).
  destruct (for_acc_success (fun s => length s = length x0)
              (fun p => 2 * p + 1 < length x0) _ _ _ _ _ Hrun1 eq_refl)
    as [Hl1 Hq1].
  { intros p [] s r' Hp Hl Hb. apply bind_success in Hb.
    destruct Hb as ([] & s2 & Hb1 & Hb2).
    apply vmodify_success in Hb1. apply vmodify_success in Hb2.
    simpl in Hb1. split; [|lia]. destruct Hb2 as [_ ->]. lia. }
  simpl in Hl1.
  destruct (for_acc_success (fun s => length s = length x0)
              (fun fr => forall d, d < dc st ->
                           slot st fr d + 1 < length x0)
              _ _ _ _ _ Hrun2 Hl1) as [_ Hq2].
  { intros fr [] s r' Hf Hl Hb.
    destruct (for_acc_success (fun s => length s = length x0)
                (fun d => slot st fr d + 1 < length x0)
                _ _ _ _ _ Hb Hl) as [Hl' Hq'].
    - intros d [] s2 r2 Hd Hl2 Hb2.
      rewrite (bind_some _ _ _ _ _ (for_acc_ret _ _ _ _)) in Hb2.
      apply bind_success in Hb2. destruct Hb2 as ([] & s3 & Hw1 & Hw2).
      apply vmodify_success in Hw1. apply vmodify_success in Hw2.
      simpl in Hw1. split; [|lia]. destruct Hw2 as [_ ->]. lia.
    - split; assumption. }
  destruct (slot_cover st (length x0) Hshort)
    as [(p & Hp & Hi) | (fr & d & Hf & Hd & Hi)].
  - specialize (Hq1 p Hp). lia.
  - specialize (Hq2 fr Hf d Hd). lia.
Qed.

Lemma posToParams_short_witness :
  posToParams fit_1p2f (fun _ _ => vzero) [0; 0; 0]%R = None.
Proof.
  apply (posToParams_short fit_1p2f). cbv. lia.
Defined.

(** X17.  When no mode is dropped ([dc = pc]), the regularisation loop of
    [grad] adds twice the coefficient to the gradient slot of every
    coefficient and leaves the frame-0 slots as they are. *)
Theorem grad_reg_adds_twice `{Interpolation} (st : GpMotionFit)
    (x g : list R) :
  dc st = pc st ->
  length x = expected_len st -> length g = expected_len st ->
  exists g',
    grad_reg st x g = Some (tt, g') /\
    length g' = expected_len st /\
    forall i, i < expected_len st ->
      nth i g' 0%R
      = (nth i g 0 + if i <? 2 * pc st then 0 else 2 * nth i x 0)%R.
Proof.
  intros Hdc Hx Hg.
  destruct (grad_reg_run st x g Hdc Hx Hg) as (g' & Hrun & L & F & C).
  exists g'. split; [exact Hrun|]. split; [congruence|].
  intros i Hi.
  destruct (slot_cover st i Hi) as [(p & Hp & Hip)
                                   | (fr & d & Hf & Hd & Hid)].
  - assert (Hlt : i < 2 * pc st) by lia.
    rewrite (F i Hlt). apply Nat.ltb_lt in Hlt. rewrite Hlt. lra.
  - pose proof (slot_above st fr d) as Ha.
    assert (Hge : (i <? 2 * pc st) = false) by (apply Nat.ltb_ge; lia).
    rewrite Hge. destruct (C fr d Hf Hd) as [Cx Cy].
    destruct Hid as [-> | ->]; [rewrite Cx | rewrite Cy];
      unfold coef; cbn [vx vy]; lra.
Qed.

Lemma grad_reg_adds_twice_witness :
  exists g',
    grad_reg fit_1p3f [1; 2; 3; 4; 5; 6]%R [0; 0; 0; 0; 0; 0]%R
      = Some (tt, g') /\
    length g' = expected_len fit_1p3f /\
    forall i, i < expected_len fit_1p3f ->
      nth i g' 0%R
      = (nth i [0; 0; 0; 0; 0; 0]%R 0
         + if i <? 2 * pc fit_1p3f then 0
           else 2 * nth i [1; 2; 3; 4; 5; 6]%R 0)%R.
Proof.
  apply (grad_reg_adds_twice fit_1p3f); reflexivity.
Defined.
